(** * Caching, background jobs, queries, uploads and timing of the
    estimation backend

    A shallow embedding of [src/performance_optimization.py] (the cache-key
    derivation and the Redis-backed result cache of [CacheManager], the Celery
    task bodies registered by [AsyncProcessor], the session context manager
    of [DatabaseOptimizer], the paginated query of [QueryOptimizer], the
    batched image analysis of [AIServiceOptimizer] and the timing context
    manager of [PerformanceMonitor]) and of [src/security_fixes.py] (the
    upload checks, the token decorator and the validation of estimate
    input).

    Python [str] values are modelled as byte strings holding their UTF-8
    encoding, so [str.encode()] is the identity on the bytes and the
    code-point order used by [sorted] is the byte-wise lexicographic order. *)

From Stdlib Require Import ZArith Ascii String DecimalString DecimalZ.
From Stdlib Require DecimalPos.
From stdpp Require Import gmap strings list sorting.

Open Scope Z_scope.

(** ** Python values handled by the cache *)

(** The fragment of Python objects the model covers: [None], booleans,
    integers and strings. *)
Inductive pyvalue : Type :=
  | PyNone
  | PyBool (b : bool)
  | PyInt (n : Z)
  | PyStr (s : string).

Global Instance pyvalue_eq_dec : EqDecision pyvalue.
Proof. solve_decision. Defined.

(** [str(v)]; on this fragment [format(v, "")], used by f-strings, agrees
    with it. *)
Definition py_str (v : pyvalue) : string :=
  match v with
  | PyNone => "None"
  | PyBool true => "True"
  | PyBool false => "False"
  | PyInt n => NilZero.string_of_int (Z.to_int n)
  | PyStr s => s
  end.

(** Truthiness of [redis_client.get]'s answer (with [decode_responses=True]
    it is [None] or a [str]): only a non-empty string is true. *)
Definition truthy (cached : option string) : bool :=
  match cached with
  | Some (String _ _) => true
  | _ => false
  end.

(** ** [hashlib]: the digests *)

Module hashlib.

Definition byte_of_ascii (c : ascii) : Z := Z.of_N (N_of_ascii c).

(** [s.encode()] *)
Definition encode (s : string) : list Z :=
  byte_of_ascii <$> list_ascii_of_string s.

Definition add32 (x y : Z) : Z := (x + y) mod 2 ^ 32.
Definition not32 (x : Z) : Z := Z.lxor x 4294967295.
Definition rotl32 (x n : Z) : Z :=
  Z.lor (Z.shiftl x n mod 2 ^ 32) (Z.shiftr x (32 - n)).
Definition rotr32 (x n : Z) : Z := rotl32 x (32 - n).

(** [n] bytes of [x], least significant first. *)
Fixpoint le_bytes (n : nat) (x : Z) : list Z :=
  match n with
  | O => []
  | S n' => x mod 256 :: le_bytes n' (x / 256)
  end.

Definition be_bytes (n : nat) (x : Z) : list Z := reverse (le_bytes n x).

Definition le_word (bs : list Z) : Z := foldr (λ b acc, b + 256 * acc) 0 bs.
Definition be_word (bs : list Z) : Z := foldl (λ acc b, 256 * acc + b) 0 bs.

(** The list cut into pieces of [k] elements. *)
Fixpoint chunks_fuel {A} (fuel k : nat) (l : list A) : list (list A) :=
  match fuel, l with
  | _, [] => []
  | O, _ => []
  | S fuel', _ => take k l :: chunks_fuel fuel' k (drop k l)
  end.

Definition chunks {A} (k : nat) (l : list A) : list (list A) :=
  chunks_fuel (length l) k l.

(** Zero bytes that bring a message of [len] bytes followed by the [0x80]
    marker to 56 modulo 64. *)
Definition pad_zeros (len : nat) : nat := Z.to_nat ((55 - Z.of_nat len) mod 64).

Definition hex_digit (d : Z) : ascii :=
  nth (Z.to_nat d) (list_ascii_of_string "0123456789abcdef") "0"%char.

Fixpoint hex_of_bytes (bs : list Z) : string :=
  match bs with
  | [] => ""
  | b :: bs' =>
      String (hex_digit (b / 16)) (String (hex_digit (b mod 16)) (hex_of_bytes bs'))
  end.

(** *** MD5 (RFC 1321) *)

Definition md5_s : list Z :=
  [7; 12; 17; 22; 7; 12; 17; 22; 7; 12; 17; 22; 7; 12; 17; 22;
   5; 9; 14; 20; 5; 9; 14; 20; 5; 9; 14; 20; 5; 9; 14; 20;
   4; 11; 16; 23; 4; 11; 16; 23; 4; 11; 16; 23; 4; 11; 16; 23;
   6; 10; 15; 21; 6; 10; 15; 21; 6; 10; 15; 21; 6; 10; 15; 21].

Definition md5_K : list Z :=
  [3614090360; 3905402710; 606105819; 3250441966; 4118548399; 1200080426;
   2821735955; 4249261313; 1770035416; 2336552879; 4294925233; 2304563134;
   1804603682; 4254626195; 2792965006; 1236535329; 4129170786; 3225465664;
   643717713; 3921069994; 3593408605; 38016083; 3634488961; 3889429448;
   568446438; 3275163606; 4107603335; 1163531501; 2850285829; 4243563512;
   1735328473; 2368359562; 4294588738; 2272392833; 1839030562; 4259657740;
   2763975236; 1272893353; 4139469664; 3200236656; 681279174; 3936430074;
   3572445317; 76029189; 3654602809; 3873151461; 530742520; 3299628645;
   4096336452; 1126891415; 2878612391; 4237533241; 1700485571; 2399980690;
   4293915773; 2240044497; 1873313359; 4264355552; 2734768916; 1309151649;
   4149444226; 3174756917; 718787259; 3951481745].

Definition md5_state : Type := Z * Z * Z * Z.

Definition md5_init : md5_state :=
  (1732584193, 4023233417, 2562383102, 271733878).

Definition md5_pad (msg : list Z) : list Z :=
  msg ++ [128] ++ replicate (pad_zeros (length msg)) 0
      ++ le_bytes 8 ((8 * Z.of_nat (length msg)) mod 2 ^ 64).

Definition md5_round (M : list Z) (st : md5_state) (i : nat) : md5_state :=
  let '(A, B, C, D) := st in
  let '(F, g) :=
    if (i <? 16)%nat then
      (Z.lor (Z.land B C) (Z.land (not32 B) D), i)
    else if (i <? 32)%nat then
      (Z.lor (Z.land D B) (Z.land (not32 D) C), ((5 * i + 1) mod 16)%nat)
    else if (i <? 48)%nat then
      (Z.lxor (Z.lxor B C) D, ((3 * i + 5) mod 16)%nat)
    else
      (Z.lxor C (Z.lor B (not32 D)), ((7 * i) mod 16)%nat) in
  let F' := add32 (add32 (add32 F A) (nth i md5_K 0)) (nth g M 0) in
  (D, add32 B (rotl32 F' (nth i md5_s 0)), B, C).

Definition md5_block (st : md5_state) (block : list Z) : md5_state :=
  let M := le_word <$> chunks 4 block in
  let '(a0, b0, c0, d0) := st in
  let '(A, B, C, D) := foldl (md5_round M) st (seq 0 64) in
  (add32 a0 A, add32 b0 B, add32 c0 C, add32 d0 D).

Definition md5_digest (msg : list Z) : list Z :=
  let '(a, b, c, d) := foldl md5_block md5_init (chunks 64 (md5_pad msg)) in
  le_bytes 4 a ++ le_bytes 4 b ++ le_bytes 4 c ++ le_bytes 4 d.

(** [hashlib.md5(data).hexdigest()] *)
Definition md5_hexdigest (msg : list Z) : string := hex_of_bytes (md5_digest msg).

(** *** SHA-256 (FIPS 180-4), the digest the specification names *)

Definition sha256_K : list Z :=
  [1116352408; 1899447441; 3049323471; 3921009573; 961987163; 1508970993;
   2453635748; 2870763221; 3624381080; 310598401; 607225278; 1426881987;
   1925078388; 2162078206; 2614888103; 3248222580; 3835390401; 4022224774;
   264347078; 604807628; 770255983; 1249150122; 1555081692; 1996064986;
   2554220882; 2821834349; 2952996808; 3210313671; 3336571891; 3584528711;
   113926993; 338241895; 666307205; 773529912; 1294757372; 1396182291;
   1695183700; 1986661051; 2177026350; 2456956037; 2730485921; 2820302411;
   3259730800; 3345764771; 3516065817; 3600352804; 4094571909; 275423344;
   430227734; 506948616; 659060556; 883997877; 958139571; 1322822218;
   1537002063; 1747873779; 1955562222; 2024104815; 2227730452; 2361852424;
   2428436474; 2756734187; 3204031479; 3329325298].

Definition sha256_init : list Z :=
  [1779033703; 3144134277; 1013904242; 2773480762;
   1359893119; 2600822924; 528734635; 1541459225].

Definition sha256_pad (msg : list Z) : list Z :=
  msg ++ [128] ++ replicate (pad_zeros (length msg)) 0
      ++ be_bytes 8 ((8 * Z.of_nat (length msg)) mod 2 ^ 64).

Definition xor3 (x y z : Z) : Z := Z.lxor (Z.lxor x y) z.

Definition sha256_extend (W : list Z) (i : nat) : list Z :=
  let w15 := nth (i - 15) W 0 in
  let w2 := nth (i - 2) W 0 in
  let s0 := xor3 (rotr32 w15 7) (rotr32 w15 18) (Z.shiftr w15 3) in
  let s1 := xor3 (rotr32 w2 17) (rotr32 w2 19) (Z.shiftr w2 10) in
  W ++ [add32 (add32 (add32 (nth (i - 16) W 0) s0) (nth (i - 7) W 0)) s1].

Definition sha256_round (W : list Z) (st : list Z) (i : nat) : list Z :=
  match st with
  | [a; b; c; d; e; f; g; h] =>
      let S1 := xor3 (rotr32 e 6) (rotr32 e 11) (rotr32 e 25) in
      let ch := Z.lxor (Z.land e f) (Z.land (not32 e) g) in
      let t1 := add32 (add32 (add32 (add32 h S1) ch) (nth i sha256_K 0)) (nth i W 0) in
      let S0 := xor3 (rotr32 a 2) (rotr32 a 13) (rotr32 a 22) in
      let maj := xor3 (Z.land a b) (Z.land a c) (Z.land b c) in
      [add32 t1 (add32 S0 maj); a; b; c; add32 d t1; e; f; g]
  | _ => st
  end.

Definition sha256_block (st : list Z) (block : list Z) : list Z :=
  let W := foldl sha256_extend (be_word <$> chunks 4 block) (seq 16 48) in
  zip_with add32 st (foldl (sha256_round W) st (seq 0 64)).

Definition sha256_digest (msg : list Z) : list Z :=
  foldl sha256_block sha256_init (chunks 64 (sha256_pad msg)) ≫= be_bytes 4.

(** [hashlib.sha256(data).hexdigest()] *)
Definition sha256_hexdigest (msg : list Z) : string :=
  hex_of_bytes (sha256_digest msg).

End hashlib.

(** ** The [eval] builtin on cached strings *)

(** What a call that reads the cache hands back to its caller. *)
Inductive response : Type :=
  | Returned (v : pyvalue)
  | RanCommand (cmd : string)
      (** the expression called [os.system(cmd)]: the shell ran [cmd] and the
          value is its exit status *)
  | Raised (exn : string)
  | Unmodelled.

Definition is_digit (c : ascii) : bool :=
  (48 <=? Z.of_N (N_of_ascii c)) && (Z.of_N (N_of_ascii c) <=? 57).

Definition is_zero (c : ascii) : bool := Z.of_N (N_of_ascii c) =? 48.

(** The digits [ds] read after the number [acc]. *)
Definition digits_from (acc : Z) (ds : list ascii) : Z :=
  foldl (λ acc c, 10 * acc + (Z.of_N (N_of_ascii c) - 48)) acc ds.

Definition digits_value (ds : list ascii) : Z := digits_from 0 ds.

(** A decimal integer literal: digits, with no leading zero unless every digit
    is a zero. *)
Definition decimal_literal (s : string) : option Z :=
  match list_ascii_of_string s with
  | [] => None
  | c :: rest =>
      if forallb is_digit (c :: rest) && (negb (is_zero c) || forallb is_zero rest)
      then Some (digits_value (c :: rest))
      else None
  end.

Fixpoint strip_prefix (pre s : string) : option string :=
  match pre, s with
  | EmptyString, _ => Some s
  | String a pre', String b s' => if Ascii.eqb a b then strip_prefix pre' s' else None
  | String _ _, EmptyString => None
  end.

Definition strip_suffix (suf s : string) : option string :=
  String.rev <$> strip_prefix (String.rev suf) (String.rev s).

(** Characters that end or escape a single-quoted string literal. *)
Definition plain_char (c : ascii) : bool :=
  negb (Ascii.eqb c "'"%char) && negb (Ascii.eqb c "\"%char)
  && (32 <=? Z.of_N (N_of_ascii c)).

Definition plain (s : string) : bool := forallb plain_char (list_ascii_of_string s).

(** ['...'] with nothing to unescape inside. *)
Definition quoted_literal (s : string) : option string :=
  body ← strip_prefix "'" s ≫= strip_suffix "'";
  if plain body then Some body else None.

(** [__import__('os').system('...')] *)
Definition os_system_call (s : string) : option string :=
  body ← strip_prefix "__import__('os').system('" s ≫= strip_suffix "')";
  if plain body then Some body else None.

(** [eval(src)] on the expressions the model covers: the constants [None],
    [True] and [False], decimal integer literals with an optional minus sign,
    plain single-quoted string literals, and a call of [os.system] through
    [__import__].  Every other source text is [Unmodelled]. *)
Definition py_eval (src : string) : response :=
  if decide (src = "None") then Returned PyNone
  else if decide (src = "True") then Returned (PyBool true)
  else if decide (src = "False") then Returned (PyBool false)
  else match decimal_literal src with
  | Some n => Returned (PyInt n)
  | None =>
  match strip_prefix "-" src ≫= decimal_literal with
  | Some n => Returned (PyInt (- n))
  | None =>
  match quoted_literal src with
  | Some s => Returned (PyStr s)
  | None =>
  match os_system_call src with
  | Some cmd => RanCommand cmd
  | None => Unmodelled
  end end end end.

(** ** The Redis server behind [redis_client] *)

Module redis.

(** A stored string and the time (in seconds) at which it expires. *)
Record entry : Type := Entry { payload : string; expires_at : Z }.

Definition live (now : Z) (e : entry) : bool := bool_decide (now < expires_at e).

(** [GET key]: the stored string, or [None] when the key is absent or its
    time to live has elapsed. *)
Definition get (now : Z) (db : gmap string entry) (key : string) : option string :=
  match db !! key with
  | Some e => if live now e then Some (payload e) else None
  | None => None
  end.

(** [SETEX key seconds value]; the server refuses a time to live that is not
    positive and the client raises. *)
Definition setex (now : Z) (db : gmap string entry) (key : string)
    (seconds : Z) (value : string) : option (gmap string entry) :=
  if bool_decide (0 < seconds)
  then Some (<[key := Entry value (now + seconds)]> db)
  else None.

(** Glob-style matching of the [MATCH] option: [*], [?], [[...]] classes
    with ranges and [^] negation, and backslash escapes. *)
Fixpoint glob (p s : list ascii) {struct p} : bool :=
  match p with
  | [] => match s with [] => true | _ => false end
  | c :: p' =>
      if Ascii.eqb c "*" then
        (fix star (s : list ascii) : bool :=
           glob p' s || match s with [] => false | _ :: s' => star s' end) s
      else if Ascii.eqb c "?" then
        match s with [] => false | _ :: s' => glob p' s' end
      else if Ascii.eqb c "[" then
        match s with
        | [] => false
        | x :: s' =>
            match p' with
            | n :: p'' =>
                if Ascii.eqb n "^" then class p'' x s' true false
                else class p' x s' false false
            | [] => class p' x s' false false
            end
        end
      else if Ascii.eqb c "\" then
        match p', s with
        | e :: p'', x :: s' => Ascii.eqb e x && glob p'' s'
        | [], x :: s' => Ascii.eqb c x && match s' with [] => true | _ => false end
        | _, [] => false
        end
      else
        match s with
        | [] => false
        | x :: s' => Ascii.eqb c x && glob p' s'
        end
  end
with class (p : list ascii) (x : ascii) (s' : list ascii) (neg found : bool)
    {struct p} : bool :=
  match p with
  | [] => xorb neg found && match s' with [] => true | _ => false end
  | c :: p' =>
      if Ascii.eqb c "]" then xorb neg found && glob p' s'
      else if Ascii.eqb c "\" then
        match p' with
        | e :: p'' => class p'' x s' neg (found || Ascii.eqb e x)
        | [] => class p' x s' neg (found || Ascii.eqb c x)
        end
      else
        match p' with
        | d :: hi :: p'' =>
            if Ascii.eqb d "-" then
              let a := N_of_ascii c in
              let b := N_of_ascii hi in
              let v := N_of_ascii x in
              class p'' x s' neg
                (found || ((N.min a b <=? v)%N && (v <=? N.max a b)%N))
            else class p' x s' neg (found || Ascii.eqb c x)
        | _ => class p' x s' neg (found || Ascii.eqb c x)
        end
  end.

(** The characters of a pattern that stand for themselves. *)
Definition plain_glob_char (c : ascii) : bool :=
  negb (Ascii.eqb c "*") && negb (Ascii.eqb c "?")
  && negb (Ascii.eqb c "[") && negb (Ascii.eqb c "\").

Definition matches (pattern key : string) : bool :=
  glob (list_ascii_of_string pattern) (list_ascii_of_string key).

(** [SCAN ... MATCH pattern], iterated to the end: the live keys that match. *)
Definition scan_iter (now : Z) (db : gmap string entry) (pattern : string)
    : list string :=
  (map_to_list (filter (λ kv, live now kv.2 ∧ matches pattern kv.1) db)).*1.

End redis.

(** ** [CacheManager] *)

Module CacheManager.

(** Keyword arguments: the items of the [kwargs] dict in insertion order;
    the names of a dict are pairwise distinct. *)
Definition item : Type := string * pyvalue.

(** The order [sorted] puts items in.  Tuples compare by their first
    component and look at the second only on a tie, which distinct names
    rule out. *)
Definition item_le (x y : item) : Prop := String.le x.1 y.1.

Global Instance item_le_dec : RelDecision item_le.
Proof. intros x y. unfold item_le. apply _. Defined.

(** [sorted(kwargs.items())] *)
Definition sorted_items (kwargs : list item) : list item :=
  merge_sort item_le kwargs.

Definition named_part (kv : item) : string := kv.1 +:+ ":" +:+ py_str kv.2.

Definition key_parts (args : list pyvalue) (kwargs : list item) : list string :=
  (py_str <$> args) ++ (named_part <$> sorted_items kwargs).

Definition key_string (args : list pyvalue) (kwargs : list item) : string :=
  String.concat ":" (key_parts args kwargs).

Definition get_cache_key (args : list pyvalue) (kwargs : list item) : string :=
  hashlib.md5_hexdigest (hashlib.encode (key_string args kwargs)).

(** The key [cache_result]'s wrapper reads and writes. *)
Definition cache_key (key_prefix : string) (args : list pyvalue)
    (kwargs : list item) : string :=
  key_prefix +:+ ":" +:+ get_cache_key args kwargs.

(** One call of the wrapper: what it hands back, the store afterwards, and
    how many times it called the wrapped function. *)
Record call : Type := Call {
  answer : response;
  store : gmap string redis.entry;
  invocations : nat
}.

Definition wrapper (timeout : Z) (key_prefix : string)
    (func : list pyvalue → list item → pyvalue)
    (now : Z) (db : gmap string redis.entry)
    (args : list pyvalue) (kwargs : list item) : call :=
  let cache_key := cache_key key_prefix args kwargs in
  let cached := redis.get now db cache_key in
  if truthy cached then
    Call (py_eval (default "" cached)) db 0
  else
    let result := func args kwargs in
    match redis.setex now db cache_key timeout (py_str result) with
    | Some db' => Call (Returned result) db' 1
    | None => Call (Raised "ResponseError") db 1
    end.

Definition cache_result (timeout : Z) (key_prefix : string) :=
  wrapper timeout key_prefix.

Definition invalidate_pattern (now : Z) (db : gmap string redis.entry)
    (pattern : string) : gmap string redis.entry :=
  foldl (λ db key, delete key db) db
    (redis.scan_iter now db ("estimation_app:" +:+ pattern)).

End CacheManager.

Module AIServiceOptimizer.

Definition _return_cached (cached_data : string) : response := py_eval cached_data.

(** The coroutine a task of the batch wraps. *)
Inductive task : Type :=
  | ReturnCached (cached_data : string)
  | AnalyzeSingleImage (image_path : string).

(** The list [analyze_images_batch] hands back, the store it leaves and the
    paths [_call_ai_service] was called for, in the order the calls
    completed; or the exception it raises. *)
Inductive batch : Type :=
  | Results (results : list response) (store : gmap string redis.entry)
      (service_calls : list string)
  | BatchRaised.

Definition is_raised (r : response) : bool :=
  match r with
  | Raised _ => true
  | _ => false
  end.

Definition analyzed (t : task) : option string :=
  match t with
  | AnalyzeSingleImage image_path => Some image_path
  | ReturnCached _ => None
  end.

Section images.

(** The bytes of the file at a path, [None] where [open] raises; the files
    stay as they are while a batch runs. *)
Variable read_file : string → option (list Z).

(** [_call_ai_service], which the class leaves to be filled in: the result
    for an image, or the exception it raises. *)
Variable _call_ai_service : string → pyvalue + string.

Definition _get_image_cache_key (image_path : string) : option string :=
  image ← read_file image_path;
  Some ("ai_analysis:" +:+ hashlib.md5_hexdigest image).

(** What the store holds for an image when the batch looks, if that is a
    true value. *)
Definition cache_hit (now : Z) (db : gmap string redis.entry) (image_path : string)
    : option string :=
  cache_key ← _get_image_cache_key image_path;
  cached_result ← redis.get now db cache_key;
  if truthy (Some cached_result) then Some cached_result else None.

Definition _analyze_single_image (now : Z) (db : gmap string redis.entry)
    (image_path : string) : response * gmap string redis.entry :=
  match _call_ai_service image_path with
  | inr exn => (Raised exn, db)
  | inl result =>
      match _get_image_cache_key image_path with
      | None => (Raised "OSError", db)
      | Some cache_key =>
          match redis.setex now db cache_key 86400 (py_str result) with
          | Some db' => (Returned result, db')
          | None => (Raised "ResponseError", db)
          end
      end
  end.

(** One turn of the loop: the task created for a path, [None] where reading
    the file raises. *)
Definition create_task (now : Z) (db : gmap string redis.entry) (image_path : string)
    : option task :=
  cache_key ← _get_image_cache_key image_path;
  let cached_result := redis.get now db cache_key in
  if truthy cached_result then Some (ReturnCached (default "" cached_result))
  else Some (AnalyzeSingleImage image_path).

(** What a task hands to [gather] when it is done. *)
Definition task_result (t : task) : response :=
  match t with
  | ReturnCached cached_data => _return_cached cached_data
  | AnalyzeSingleImage image_path =>
      match _call_ai_service image_path with
      | inl result => Returned result
      | inr exn => Raised exn
      end
  end.

(** The result for a path: the cached text evaluated when the look at the
    store found one, the answer of the service otherwise. *)
Definition answer (now : Z) (db : gmap string redis.entry) (image_path : string)
    : response :=
  match cache_hit now db image_path with
  | Some cached_data => _return_cached cached_data
  | None =>
      match _call_ai_service image_path with
      | inl result => Returned result
      | inr exn => Raised exn
      end
  end.

(** The state of a running batch: the results of the tasks that are done,
    by their position, the store, and the service calls that completed. *)
Record gathering : Type := Gathering {
  finished : gmap nat response;
  store : gmap string redis.entry;
  service_calls : list string
}.

(** The task at position [i] runs to its end. *)
Definition finish_task (now : Z) (tasks : list task) (st : gathering) (i : nat)
    : gathering :=
  match tasks !! i with
  | Some (ReturnCached cached_data) =>
      Gathering (<[i := _return_cached cached_data]> (finished st)) (store st)
        (service_calls st)
  | Some (AnalyzeSingleImage image_path) =>
      let '(result, db') := _analyze_single_image now (store st) image_path in
      Gathering (<[i := result]> (finished st)) db' (service_calls st ++ [image_path])
  | None => st
  end.

(** [asyncio.gather] on the tasks, when they complete in the order [order] of
    their positions. *)
Definition gather (now : Z) (db : gmap string redis.entry) (tasks : list task)
    (order : list nat) : gathering :=
  foldl (finish_task now tasks) (Gathering ∅ db []) order.

(** The loop creates every task before any of them runs, so every look at
    the store comes before every write; the results are in the order of the
    paths whatever the order the tasks complete in, and one task that raises
    makes the batch raise. *)
Definition analyze_images_batch (now : Z) (db : gmap string redis.entry)
    (image_paths : list string) (order : list nat) : batch :=
  match mapM (create_task now db) image_paths with
  | None => BatchRaised
  | Some tasks =>
      let st := gather now db tasks order in
      let results := omap (λ i, finished st !! i) (seq 0 (length tasks)) in
      if existsb is_raised results then BatchRaised
      else Results results (store st) (service_calls st)
  end.

End images.

End AIServiceOptimizer.

(** ** [AsyncProcessor]: the Celery tasks *)

Module AsyncProcessor.

(** The two classes of failure the specification tells apart.  Both are
    ordinary exceptions for the task bodies. *)
Inductive failure : Type :=
  | Transient
  | Permanent.

Inductive task_state : Type :=
  | PENDING
  | STARTED
  | PROCESSING
  | SUCCESS
  | FAILURE.

(** The [meta] dict of a state update. *)
Inductive meta : Type :=
  | NoMeta
  | Status (status : string)
  | Progress (current total : nat).

(** How one run of a task body ends.  [RetryRequested] is the exception
    [self.retry()] raises to have the worker run the task again. *)
Inductive completion (R : Type) : Type :=
  | Returns (r : R)
  | Raises (f : failure)
  | RetryRequested.
Global Arguments Returns {R} r.
Global Arguments Raises {R} f.
Global Arguments RetryRequested {R}.

(** What the outside can observe of a job: the state updates written to the
    result backend, the calls of [update_estimate_with_results], and how
    many times the AI service was called. *)
Record world : Type := World {
  state_updates : list (task_state * meta);
  estimate_updates : list (string * pyvalue);
  ai_calls : nat
}.

Definition update_state (st : task_state) (m : meta) (w : world) : world :=
  World (state_updates w ++ [(st, m)]) (estimate_updates w) (ai_calls w).

(** The record of a finished job. *)
Record job (R : Type) : Type := Job {
  final_state : task_state;
  result : option R;
  error : option failure;
  attempts : nat;
  observed : world
}.
Global Arguments Job {R}.
Global Arguments final_state {R}.
Global Arguments result {R}.
Global Arguments error {R}.
Global Arguments attempts {R}.
Global Arguments observed {R}.

(** The worker: it runs the body, records success or failure, and runs the
    body again only when the body asks for a retry and retries are left
    (Celery's [max_retries], 3 unless the task sets it). *)
Fixpoint worker_loop {R} (retries_left : nat) (attempt : nat)
    (body : world → completion R * world) (w : world) : job R :=
  match body w with
  | (Returns r, w') =>
      Job SUCCESS (Some r) None (S attempt) (update_state SUCCESS NoMeta w')
  | (Raises f, w') =>
      Job FAILURE None (Some f) (S attempt) (update_state FAILURE NoMeta w')
  | (RetryRequested, w') =>
      match retries_left with
      | O => Job FAILURE None None (S attempt) (update_state FAILURE NoMeta w')
      | S n => worker_loop n (S attempt) body w'
      end
  end.

Definition max_retries : nat := 3.

(** A submitted job is picked up by a worker, which reports [STARTED]
    ([task_track_started]) and runs the body. *)
Definition run_job {R} (body : world → completion R * world) : job R :=
  worker_loop max_retries 0 body (update_state STARTED NoMeta (World [] [] 0)).

Section tasks.
(** The collaborators the task bodies call; the repository does not
    define them.  The AI service may answer differently from one call to
    the next, so its answer depends on the number of earlier calls. *)
Context {Item Result : Type}.
Variable analyze_image_with_ai : nat → string → pyvalue + failure.
Variable update_estimate_with_results : string → pyvalue → option failure.
Variable process_single_item : Item → Result + failure.

(** The body of [process_image_task].  The dict it returns is represented by
    its ['result'] entry; the [except] clause logs the exception and raises
    it again, so an exception leaves the body as it arose. *)
Definition process_image_task (image_path estimate_id : string) (w : world)
    : completion pyvalue * world :=
  let w1 := update_state PROCESSING (Status "Analyzing image...") w in
  let w2 := World (state_updates w1) (estimate_updates w1) (S (ai_calls w1)) in
  match analyze_image_with_ai (ai_calls w1) image_path with
  | inr f => (Raises f, w2)
  | inl result =>
      let w3 :=
        World (state_updates w2)
              (estimate_updates w2 ++ [(estimate_id, result)]) (ai_calls w2) in
      match update_estimate_with_results estimate_id result with
      | Some f => (Raises f, w3)
      | None => (Returns result, w3)
      end
  end.

(** The loop of [batch_process_task] from index [i] on; the dict the task
    returns is represented by its ['results'] entry. *)
Fixpoint batch_loop (total i : nat) (items : list Item) (results : list Result)
    (w : world) : completion (list Result) * world :=
  match items with
  | [] => (Returns results, w)
  | item :: rest =>
      let w' := update_state PROCESSING (Progress (i + 1) total) w in
      match process_single_item item with
      | inl r => batch_loop total (S i) rest (results ++ [r]) w'
      | inr f => (Raises f, w')
      end
  end.

Definition batch_process_task (items : list Item) (w : world)
    : completion (list Result) * world :=
  batch_loop (length items) 0 items [] w.

(** The results of the items that are processed without an exception. *)
Definition results_of (items : list Item) : list Result :=
  omap (λ item, match process_single_item item with
                | inl r => Some r
                | inr _ => None
                end) items.

Definition processed (item : Item) : Prop :=
  ∃ r, process_single_item item = inl r.

End tasks.

(** The progress reports [first/total], [(first+1)/total], ..., [count] of
    them, as state updates. *)
Definition reports (total first count : nat) : list (task_state * meta) :=
  (λ k, (PROCESSING, Progress k total)) <$> seq first count.

(** The progress reports among the state updates, in the order written. *)
Definition progress_of (w : world) : list (nat * nat) :=
  omap (λ u, match u.2 with Progress c t => Some (c, t) | _ => None end)
       (state_updates w).

End AsyncProcessor.

(** ** [PerformanceMonitor] *)

Module PerformanceMonitor.

Inductive level : Type := INFO | WARNING.

(** How the body of a [with] block ends. *)
Inductive exit : Type :=
  | Normal
  | Exception (name : string).

(** What [get_statistics] hands back or raises. *)
Inductive statistics (float : Type) : Type :=
  | EmptyDict
  | Stats (count : nat) (total average min max : float)
  | StatsRaised (exn : string).
Global Arguments EmptyDict {float}.
Global Arguments Stats {float}.
Global Arguments StatsRaised {float}.

Section monitor.
(** Durations are Python floats; the development is parametric in the
    float type and its operations. *)
Context {float : Type}.
Variable fsub fadd fmin fmax : float → float → float.
Variable fdiv : float → nat → float.
Variable fzero : float.
Variable exceeds5 : float → bool.

(** The monitor's [metrics] dict, the clock read by [time.time()], and
    the records handed to the logger. *)
Record world : Type := World {
  metrics : gmap string (list float);
  clock : float;
  logged : list (level * string * float)
}.

(** The [finally] block of [track_time]. *)
Definition record_sample (operation_name : string) (start_time : float)
    (w : world) : world :=
  let duration := fsub (clock w) start_time in
  let logged1 := logged w ++ [(INFO, operation_name, duration)] in
  let metrics1 :=
    if bool_decide (operation_name ∈ dom (metrics w)) then metrics w
    else <[operation_name := []]> (metrics w) in
  let metrics2 := alter (λ times, times ++ [duration]) operation_name metrics1 in
  let logged2 :=
    if exceeds5 duration then logged1 ++ [(WARNING, operation_name, duration)]
    else logged1 in
  World metrics2 (clock w) logged2.

(** [with self.track_time(operation_name): body] *)
Definition track_time (operation_name : string) (body : world → exit * world)
    (w : world) : exit * world :=
  let start_time := clock w in
  let '(e, w') := body w in
  (e, record_sample operation_name start_time w').

(** Every operation that has an entry has at least one sample. *)
Definition samples_nonempty (m : gmap string (list float)) : Prop :=
  ∀ name times, m !! name = Some times → times ≠ [].

Definition py_sum (times : list float) : float := foldl fadd fzero times.

(** [min(times)] and [max(times)], which raise on an empty list. *)
Definition py_min (times : list float) : option float :=
  match times with
  | [] => None
  | t :: ts => Some (foldl fmin t ts)
  end.

Definition py_max (times : list float) : option float :=
  match times with
  | [] => None
  | t :: ts => Some (foldl fmax t ts)
  end.

Definition get_statistics (m : gmap string (list float)) (operation_name : string)
    : statistics float :=
  match m !! operation_name with
  | None => EmptyDict
  | Some times =>
      let count := length times in
      let total := py_sum times in
      if bool_decide (count = 0%nat) then StatsRaised "ZeroDivisionError"
      else
        match py_min times, py_max times with
        | Some lo, Some hi => Stats count total (fdiv total count) lo hi
        | _, _ => StatsRaised "ValueError"
        end
  end.

End monitor.

End PerformanceMonitor.

(** ** [QueryOptimizer] *)

Module QueryOptimizer.

(** What [get_estimates_paginated] hands back or raises.  [Unmodelled]
    stands for a negative [LIMIT] or [OFFSET], which each database treats in
    its own way. *)
Inductive paginated (Estimate : Type) : Type :=
  | Page (items : list Estimate) (total page per_page pages : Z)
  | ZeroDivisionError
  | UnmodelledQuery.
Global Arguments Page {Estimate}.
Global Arguments ZeroDivisionError {Estimate}.
Global Arguments UnmodelledQuery {Estimate}.

Definition items_of {Estimate} (r : paginated Estimate) : list Estimate :=
  match r with
  | Page items _ _ _ _ => items
  | _ => []
  end.

Section queries.
(** The rows of the [estimates] table with the two columns the query looks
    at; the model class lives outside the repository. *)
Context {Estimate : Type}.
Variable project_id_of : Estimate → option string.
Variable created_at : Estimate → Z.

(** [ORDER BY created_at DESC].  Rows with equal dates are kept in the order
    of the table: the database is taken to put them in the same order on
    every query, which SQL leaves open. *)
Definition newer_first (a b : Estimate) : Prop := created_at b ≤ created_at a.

Global Instance newer_first_dec : RelDecision newer_first.
Proof. intros a b. unfold newer_first. apply _. Defined.

Definition order_by_created_at_desc (rows : list Estimate) : list Estimate :=
  merge_sort newer_first rows.

(** [query.filter(Estimate.project_id == project_id)], applied only when
    [project_id] is true (neither [None] nor empty). *)
Definition filtered (rows : list Estimate) (project_id : option string)
    : list Estimate :=
  if truthy project_id
  then filter (λ e, project_id_of e = project_id) rows
  else rows.

Definition get_estimates_paginated (rows : list Estimate) (page per_page : Z)
    (project_id : option string) : paginated Estimate :=
  let query := filtered rows project_id in
  let total := Z.of_nat (length query) in
  if bool_decide (per_page < 0 ∨ (page - 1) * per_page < 0) then UnmodelledQuery
  else
    let estimates :=
      take (Z.to_nat per_page)
        (drop (Z.to_nat ((page - 1) * per_page)) (order_by_created_at_desc query)) in
    if bool_decide (per_page = 0) then ZeroDivisionError
    else Page estimates total page per_page ((total + per_page - 1) `div` per_page).

End queries.

End QueryOptimizer.

(** ** [DatabaseOptimizer] *)

Module DatabaseOptimizer.

(** What a call can raise: an [Exception], or a [BaseException] that is not
    one ([KeyboardInterrupt], [SystemExit], [GeneratorExit]). *)
Inductive raised : Type :=
  | Exception (name : string)
  | BaseException (name : string).

Definition is_exception (r : raised) : bool :=
  match r with
  | Exception _ => true
  | BaseException _ => false
  end.

(** The calls made on the session. *)
Inductive session_call : Type :=
  | Commit
  | Rollback
  | Close.

Global Instance session_call_eq_dec : EqDecision session_call.
Proof. solve_decision. Defined.

(** [with optimizer.optimized_session() as session: body]: the calls made on
    the session, in order, and what the [with] statement raises.  [body] is
    what the block under [with] raised, the other three what the session's
    methods raise when they are called ([None]: the call returns). *)
Definition optimized_session (body commit rollback close : option raised)
    : list session_call * option raised :=
  (* try: yield session; session.commit() *)
  let '(calls, pending) :=
    match body with
    | Some r => ([], Some r)
    | None => ([Commit], commit)
    end in
  (* except Exception: session.rollback(); raise *)
  let '(calls, pending) :=
    match pending with
    | Some r =>
        if is_exception r then
          (calls ++ [Rollback], match rollback with Some r' => Some r' | None => Some r end)
        else (calls, Some r)
    | None => (calls, None)
    end in
  (* finally: session.close() *)
  (calls ++ [Close], match close with Some r' => Some r' | None => pending end).

End DatabaseOptimizer.

(** ** [security_fixes]: uploads, tokens and estimate input *)

Module security_fixes.

Module SecurityConfig.

Definition MAX_FILE_SIZE : Z := 10 * 1024 * 1024.

Definition ALLOWED_EXTENSIONS : list string := ["png"; "jpg"; "jpeg"; "gif"; "pdf"].

End SecurityConfig.

(** [c.lower()] on the bytes of a string.  A byte of a code point outside
    ASCII is kept: no such code point lowers to a text made of the letters
    of an allowed extension. *)
Definition lower_char (c : ascii) : ascii :=
  let n := N_of_ascii c in
  if (65 <=? n)%N && (n <=? 90)%N then ascii_of_N (n + 32) else c.

Fixpoint lower (s : string) : string :=
  match s with
  | EmptyString => EmptyString
  | String c s' => String (lower_char c) (lower s')
  end.

(** ['.' in s] *)
Fixpoint has_dot (s : string) : bool :=
  match s with
  | EmptyString => false
  | String c s' => Ascii.eqb c "." || has_dot s'
  end.

(** [s.rsplit('.', 1)]: [s] cut at its last dot, or [s] alone when it has
    none. *)
Fixpoint rsplit_dot (s : string) : list string :=
  match s with
  | EmptyString => [EmptyString]
  | String c s' =>
      match rsplit_dot s' with
      | [head; tail] => [String c head; tail]
      | _ => if Ascii.eqb c "." then [EmptyString; s'] else [String c s']
      end
  end.

Definition allowed_file (filename : string) : bool :=
  has_dot filename &&
  match rsplit_dot filename !! 1%nat with
  | Some ext => bool_decide (lower ext ∈ SecurityConfig.ALLOWED_EXTENSIONS)
  | None => false
  end.

(** An uploaded file: the name the client sent and the number of bytes of
    its stream, which is what [file.tell()] gives after
    [file.seek(0, os.SEEK_END)]. *)
Record FileStorage : Type := { filename : string; size : Z }.

(** The messages of a refused upload:
    - [NoFileProvided]: "No file provided";
    - [InvalidFilename]: "Invalid filename";
    - [FileTypeNotAllowed]: "File type not allowed. Allowed types: " and the
      allowed extensions, in the order the set iterates in;
    - [FileSizeExceeds]: "File size exceeds maximum allowed size of 10.0MB". *)
Inductive upload_error : Type :=
  | NoFileProvided
  | InvalidFilename
  | FileTypeNotAllowed
  | FileSizeExceeds.

(** [(True, filename)] or [(False, message)] *)
Inductive upload : Type :=
  | Valid (filename : string)
  | Invalid (error : upload_error).

(** A decoded token. *)
Inductive decoded : Type :=
  | Payload (claims : gmap string pyvalue)
  | ExpiredSignatureError
  | InvalidTokenError.

(** What the decorated view does: a 401 response with its error text, the
    [KeyError] of a payload with no [user_id], or the wrapped view run with
    [request.user_id] set, whose answer is handed back. *)
Inductive guarded (R : Type) : Type :=
  | Unauthorized (error : string)
  | KeyError
  | Ran (user_id : pyvalue) (answer : R).

Global Arguments Unauthorized {R}.
Global Arguments KeyError {R}.
Global Arguments Ran {R}.

(** A finite float is [m * 2 ^ e]; every double is of this form. *)
Inductive pyfloat : Type :=
  | Finite (m e : Z)
  | Infinity (negative : bool)
  | NaN.

(** The values of a decoded JSON document. *)
#[warnings="-register-all"]
Inductive jvalue : Type :=
  | JNone
  | JBool (b : bool)
  | JInt (n : Z)
  | JFloat (x : pyfloat)
  | JStr (s : string)
  | JList (items : list jvalue)
  | JDict (items : list (string * jvalue)).

(** [bool(v)] *)
Definition is_true (v : jvalue) : bool :=
  match v with
  | JNone => false
  | JBool b => b
  | JInt n => negb (n =? 0)
  | JFloat (Finite m _) => negb (m =? 0)
  | JFloat _ => true
  | JStr s => negb (bool_decide (s = EmptyString))
  | JList items => negb (bool_decide (items = []))
  | JDict items => negb (bool_decide (items = []))
  end.

(** The bytes [10xxxxxx] that continue a code point in UTF-8. *)
Definition is_continuation (c : ascii) : bool :=
  let n := N_of_ascii c in (128 <=? n)%N && (n <=? 191)%N.

(** [len(s)] of a [str]: its number of code points. *)
Definition str_len (s : string) : Z :=
  Z.of_nat (length (List.filter (λ c, negb (is_continuation c)) (list_ascii_of_string s))).

(** [len(v)]; [None] where it raises [TypeError]. *)
Definition py_len (v : jvalue) : option Z :=
  match v with
  | JStr s => Some (str_len s)
  | JList items => Some (Z.of_nat (length items))
  | JDict items => Some (Z.of_nat (length items))
  | _ => None
  end.

(** The outcome of [float(v)]. *)
Inductive conversion : Type :=
  | Float (x : pyfloat)
  | ValueError
  | TypeError
  | OverflowError.

(** [x < k] and [x > k] for an integer [k] that is a double; a comparison
    with a NaN is false. *)
Definition float_lt (x : pyfloat) (k : Z) : bool :=
  match x with
  | Finite m e => if 0 <=? e then m * 2 ^ e <? k else m <? k * 2 ^ (- e)
  | Infinity negative => negative
  | NaN => false
  end.

Definition float_gt (x : pyfloat) (k : Z) : bool :=
  match x with
  | Finite m e => if 0 <=? e then k <? m * 2 ^ e else k * 2 ^ (- e) <? m
  | Infinity negative => negb negative
  | NaN => false
  end.

(** What the call raised instead of handing back its list of errors. *)
Inductive validation : Type :=
  | Errors (errors : list string)
  | RaisedTypeError
  | RaisedOverflowError.

Section helpers.

(** [werkzeug.utils.secure_filename] *)
Variable secure_filename : string → string.

(** [file] is [None] or a [FileStorage], which is false when its name is
    empty. *)
Definition validate_file_upload (file : option FileStorage) : upload :=
  match file with
  | None => Invalid NoFileProvided
  | Some file =>
      if bool_decide (filename file = EmptyString) then Invalid NoFileProvided
      else
        let filename := secure_filename (filename file) in
        if bool_decide (filename = EmptyString) then Invalid InvalidFilename
        else if negb (allowed_file filename) then Invalid FileTypeNotAllowed
        else
          let file_size := size file in
          if SecurityConfig.MAX_FILE_SIZE <? file_size then Invalid FileSizeExceeds
          else Valid filename
  end.

(** [jwt.decode(token, SecurityConfig.JWT_SECRET_KEY, algorithms=['HS256'])];
    whatever it raises for a token it refuses is an [InvalidTokenError]. *)
Variable jwt_decode : string → decoded.

(** The view [require_auth(f)], called on a request whose [Authorization]
    header is [authorization].  The view [f] reads [request.user_id]. *)
Definition require_auth {R} (f : pyvalue → R) (authorization : option string)
    : guarded R :=
  let token := authorization in
  if negb (truthy token) then Unauthorized "No token provided"
  else
    let token := default EmptyString token in
    let token :=
      match strip_prefix "Bearer " token with
      | Some rest => rest
      | None => token
      end in
    match jwt_decode token with
    | Payload payload =>
        match payload !! "user_id" with
        | Some user_id => Ran user_id (f user_id)
        | None => KeyError
        end
    | ExpiredSignatureError => Unauthorized "Token has expired"
    | InvalidTokenError => Unauthorized "Invalid token"
    end.

(** [float(s)] of a [str]: the float it spells, or [None] where it raises
    [ValueError]. *)
Variable float_of_str : string → option pyfloat.

(** [float(v)].  An integer is rounded to the nearest double, here kept
    exact: rounding is monotone and [0] and [10000] are doubles, so the
    comparisons below come out the same.  An integer that rounds past the
    largest double raises [OverflowError]. *)
Definition py_float (v : jvalue) : conversion :=
  match v with
  | JNone => TypeError
  | JBool b => Float (Finite (if b then 1 else 0) 0)
  | JInt n =>
      if bool_decide (Z.abs n < 2 ^ 1024 - 2 ^ 970) then Float (Finite n 0)
      else OverflowError
  | JFloat x => Float x
  | JStr s =>
      match float_of_str s with
      | Some x => Float x
      | None => ValueError
      end
  | JList _ | JDict _ => TypeError
  end.

(** The first loop: a required field that is absent or false. *)
Definition required_errors (data : gmap string jvalue) : list string :=
  field ← ["project_name"; "description"];
  match data !! field with
  | Some v => if is_true v then [] else ["Field '" +:+ field +:+ "' is required"]
  | None => ["Field '" +:+ field +:+ "' is required"]
  end.

(** [if field in data and len(data[field]) > limit: errors.append(message)];
    [None] where [len] raises [TypeError]. *)
Definition length_errors (data : gmap string jvalue) (field : string) (limit : Z)
    (message : string) : option (list string) :=
  match data !! field with
  | None => Some []
  | Some v =>
      n ← py_len v;
      Some (if limit <? n then [message] else [])
  end.

Definition validate_estimate_input (data : gmap string jvalue) : validation :=
  let errors := required_errors data in
  match length_errors data "project_name" 200
          "Project name must be less than 200 characters" with
  | None => RaisedTypeError
  | Some name_errors =>
  let errors := errors ++ name_errors in
  match length_errors data "description" 1000
          "Description must be less than 1000 characters" with
  | None => RaisedTypeError
  | Some description_errors =>
  let errors := errors ++ description_errors in
  match data !! "labor_hours" with
  | None => Errors errors
  | Some v =>
      match py_float v with
      | Float hours =>
          if float_lt hours 0 || float_gt hours 10000
          then Errors (errors ++ ["Labor hours must be between 0 and 10000"])
          else Errors errors
      | ValueError | TypeError =>
          Errors (errors ++ ["Labor hours must be a valid number"])
      | OverflowError => RaisedOverflowError
      end
  end end end.

End helpers.

End security_fixes.

(** * Facts *)

(** ** The digests agree with the published test vectors *)

Example md5_empty :
  hashlib.md5_hexdigest (hashlib.encode "") = "d41d8cd98f00b204e9800998ecf8427e".
Proof. vm_compute. reflexivity. Qed.

Example md5_abc :
  hashlib.md5_hexdigest (hashlib.encode "abc") = "900150983cd24fb0d6963f7d28e17f72".
Proof. vm_compute. reflexivity. Qed.

Example md5_two_blocks :
  hashlib.md5_hexdigest
    (hashlib.encode
       "aaaaaaaaaaaaaaaaaaaaaaaaaaaaaaaaaaaaaaaaaaaaaaaaaaaaaaaaaaaaaaaaaaaaaa")
  = "0f5c6c4e740bfcc08c3c26ccb2673d46".
Proof. vm_compute. reflexivity. Qed.

Example sha256_abc :
  hashlib.sha256_hexdigest (hashlib.encode "abc")
  = "ba7816bf8f01cfea414140de5dae2223b00361a396177a9cb410ff61f20015ad".
Proof. vm_compute. reflexivity. Qed.

Example sha256_two_blocks :
  hashlib.sha256_hexdigest
    (hashlib.encode
       "aaaaaaaaaaaaaaaaaaaaaaaaaaaaaaaaaaaaaaaaaaaaaaaaaaaaaaaaaaaaaaaaaaaaaa")
  = "6bd5e5034855a11241f0dee8fc72850ffd9955b28347a86428b5fa19119f6ad0".
Proof. vm_compute. reflexivity. Qed.

(** ** Shape of the digests *)

Section digest_shape.
Import hashlib.

Lemma hex_of_bytes_length bs :
  String.length (hex_of_bytes bs) = (2 * length bs)%nat.
Proof. induction bs as [|b bs IH]; simpl; [done | rewrite IH; lia]. Qed.

Lemma le_bytes_length n x : length (le_bytes n x) = n.
Proof. revert x. induction n as [|n IH]; intros x; simpl; [done | by rewrite IH]. Qed.

Lemma be_bytes_length n x : length (be_bytes n x) = n.
Proof. unfold be_bytes. by rewrite length_reverse, le_bytes_length. Qed.

Lemma md5_digest_length msg : length (md5_digest msg) = 16%nat.
Proof.
  unfold md5_digest.
  destruct (foldl md5_block md5_init (chunks 64 (md5_pad msg))) as [[[a b] c] d].
  by rewrite !length_app, !le_bytes_length.
Qed.

Lemma md5_hexdigest_length msg : String.length (md5_hexdigest msg) = 32%nat.
Proof. unfold md5_hexdigest. by rewrite hex_of_bytes_length, md5_digest_length. Qed.

Lemma sha256_round_length W st i :
  length st = 8%nat → length (sha256_round W st i) = 8%nat.
Proof.
  intros Hst.
  destruct st as [|a [|b [|c [|d [|e [|f [|g [|h [|? ?]]]]]]]]]; simplify_eq/=; done.
Qed.

Lemma sha256_rounds_length W idx st :
  length st = 8%nat → length (foldl (sha256_round W) st idx) = 8%nat.
Proof.
  revert st. induction idx as [|i idx IH]; intros st Hst; simpl; [done|].
  apply IH. by apply sha256_round_length.
Qed.

Lemma sha256_block_length st block :
  length st = 8%nat → length (sha256_block st block) = 8%nat.
Proof.
  intros Hst. unfold sha256_block.
  rewrite length_zip_with, sha256_rounds_length by done. lia.
Qed.

Lemma sha256_blocks_length blocks st :
  length st = 8%nat → length (foldl sha256_block st blocks) = 8%nat.
Proof.
  revert st. induction blocks as [|b blocks IH]; intros st Hst; simpl; [done|].
  apply IH. by apply sha256_block_length.
Qed.

Lemma bind_be_bytes_length (ws : list Z) :
  length (ws ≫= be_bytes 4) = (4 * length ws)%nat.
Proof.
  induction ws as [|w ws IH]; [done|].
  rewrite bind_cons, length_app, be_bytes_length, IH. simpl. lia.
Qed.

Lemma sha256_hexdigest_length msg : String.length (sha256_hexdigest msg) = 64%nat.
Proof.
  unfold sha256_hexdigest, sha256_digest.
  rewrite hex_of_bytes_length, bind_be_bytes_length, sha256_blocks_length; done.
Qed.

End digest_shape.

(** ** Cache keys *)

Section cache_keys.
Import hashlib CacheManager.

Global Instance item_le_trans : Transitive item_le.
Proof. intros x y z. unfold item_le. apply transitivity. Qed.

Global Instance item_le_total : Total item_le.
Proof. intros x y. unfold item_le. apply total, _. Qed.

Lemma items_same_name (kwargs : list item) x y :
  NoDup kwargs.*1 → x ∈ kwargs → y ∈ kwargs → x.1 = y.1 → x = y.
Proof.
  induction kwargs as [|z kwargs IH]; intros Hnd Hx Hy Hxy.
  { by apply not_elem_of_nil in Hx. }
  rewrite fmap_cons in Hnd. apply NoDup_cons in Hnd as [Hz Hnd].
  apply elem_of_cons in Hx as [->|Hx]; apply elem_of_cons in Hy as [->|Hy].
  - done.
  - exfalso. apply Hz. rewrite Hxy. by apply list_elem_of_fmap_2.
  - exfalso. apply Hz. rewrite <- Hxy. by apply list_elem_of_fmap_2.
  - by apply IH.
Qed.

Lemma sorted_items_sorted kwargs : StronglySorted item_le (sorted_items kwargs).
Proof. apply StronglySorted_merge_sort; apply _. Qed.

Lemma sorted_items_perm kwargs : sorted_items kwargs ≡ₚ kwargs.
Proof. apply merge_sort_Permutation. Qed.

(** Sorting forgets the order in which a dict was filled. *)
Lemma sorted_items_insertion_order kw1 kw2 :
  NoDup kw1.*1 → kw1 ≡ₚ kw2 → sorted_items kw1 = sorted_items kw2.
Proof.
  intros Hnd Hperm.
  apply (StronglySorted_unique_strong item_le);
    [ | apply sorted_items_sorted | apply sorted_items_sorted
      | by rewrite !sorted_items_perm ].
  intros x y Hx Hy Hxy Hyx.
  apply (items_same_name kw1); [done | | | ].
  - by rewrite <- (sorted_items_perm kw1).
  - by rewrite Hperm, <- (sorted_items_perm kw2).
  - unfold item_le in *. by apply (anti_symm String.le).
Qed.

Lemma get_cache_key_length args kwargs :
  String.length (get_cache_key args kwargs) = 32%nat.
Proof. unfold get_cache_key. apply md5_hexdigest_length. Qed.

Lemma get_cache_key_never_sha256 args kwargs msg :
  get_cache_key args kwargs ≠ sha256_hexdigest msg.
Proof.
  intros Heq. pose proof (get_cache_key_length args kwargs) as Hlen.
  rewrite Heq, sha256_hexdigest_length in Hlen. discriminate.
Qed.






End cache_keys.

(** ** The Redis store *)

Section redis_store.
Import redis.

Lemma get_setex now db key seconds value db' now' :
  setex now db key seconds value = Some db' →
  get now' db' key = if bool_decide (now' < now + seconds) then Some value else None.
Proof.
  unfold setex, get. case_bool_decide; [|done].
  intros [= <-]. rewrite lookup_insert_eq. unfold live. simpl.
  by case_bool_decide.
Qed.

Lemma get_setex_other now db key seconds value db' now' key' :
  setex now db key seconds value = Some db' → key ≠ key' →
  get now' db' key' = get now' db key'.
Proof.
  unfold setex, get. case_bool_decide; [|done].
  intros [= <-] Hne. by rewrite lookup_insert_ne.
Qed.

Lemma get_Some now (db : gmap string entry) key value :
  get now db key = Some value ↔
  ∃ e, db !! key = Some e ∧ now < expires_at e ∧ payload e = value.
Proof.
  unfold get, live. split.
  - destruct (db !! key) as [e|]; [|done].
    case_bool_decide; [|done]. intros [= <-]. eauto.
  - intros (e & -> & Hlive & <-). by rewrite bool_decide_eq_true_2.
Qed.

Lemma foldl_delete_lookup (ks : list string) (db : gmap string entry) k :
  foldl (λ db key, delete key db) db ks !! k
  = if bool_decide (k ∈ ks) then None else db !! k.
Proof.
  revert db. induction ks as [|k' ks IH]; intros db; simpl.
  { done. }
  rewrite IH. destruct (decide (k = k')) as [->|Hne].
  - rewrite lookup_delete_eq.
    rewrite (bool_decide_eq_true_2 (k' ∈ k' :: ks)) by left.
    by case_bool_decide.
  - rewrite lookup_delete_ne by done.
    destruct (decide (k ∈ ks)) as [Hin|Hin].
    + rewrite (bool_decide_eq_true_2 (k ∈ ks)) by done.
      by rewrite (bool_decide_eq_true_2 (k ∈ k' :: ks)) by by right.
    + rewrite (bool_decide_eq_false_2 (k ∈ ks)) by done.
      rewrite (bool_decide_eq_false_2 (k ∈ k' :: ks)); [done|].
      intros [?|?]%elem_of_cons; done.
Qed.

Lemma elem_of_scan_iter now (db : gmap string entry) pattern k :
  k ∈ scan_iter now db pattern ↔
  ∃ e, db !! k = Some e ∧ live now e ∧ matches pattern k.
Proof.
  unfold scan_iter. rewrite list_elem_of_fmap. split.
  - intros ([k' e] & -> & Hin). apply elem_of_map_to_list in Hin.
    apply map_lookup_filter_Some in Hin as [Hk [Hlive Hm]]. eauto.
  - intros (e & Hk & Hlive & Hm). exists (k, e). split; [done|].
    apply elem_of_map_to_list, map_lookup_filter_Some. eauto.
Qed.

(** A pattern that starts with plain characters only matches keys that start
    with the same characters. *)
Lemma glob_plain_prefix pre p s :
  forallb plain_glob_char pre = true →
  glob (pre ++ p) s = true → ∃ s', s = pre ++ s' ∧ glob p s' = true.
Proof.
  revert s. induction pre as [|c pre IH]; intros s Hpre Hm; simpl in *.
  { eauto. }
  apply andb_prop in Hpre as [Hc Hpre]. unfold plain_glob_char in Hc.
  repeat (apply andb_prop in Hc as [Hc ?]).
  repeat match goal with
         | H : negb (Ascii.eqb _ _) = true |- _ =>
             apply negb_true_iff in H; rewrite H in Hm
         end.
  destruct s as [|x s]; [done|].
  apply andb_prop in Hm as [Hx Hm]. apply Ascii.eqb_eq in Hx as ->.
  destruct (IH s Hpre Hm) as (s' & -> & Hs'). eauto.
Qed.

Lemma list_ascii_of_string_app a b :
  list_ascii_of_string (a +:+ b) = list_ascii_of_string a ++ list_ascii_of_string b.
Proof. induction a as [|c a IH]; simpl; [done | by rewrite <- IH]. Qed.

Lemma string_of_list_ascii_inj_app pre l s :
  list_ascii_of_string s = list_ascii_of_string pre ++ l →
  s = pre +:+ string_of_list_ascii l.
Proof.
  intros Heq. rewrite <- (string_of_list_ascii_of_string s), Heq.
  clear Heq. induction pre as [|c pre IH]; simpl; [done | by rewrite IH].
Qed.

Lemma matches_namespace pattern key :
  matches ("estimation_app:" +:+ pattern) key →
  ∃ rest, key = "estimation_app:" +:+ rest.
Proof.
  unfold matches. rewrite list_ascii_of_string_app. intros Hm.
  apply Is_true_true in Hm.
  apply glob_plain_prefix in Hm as (s' & Hs & _); [|by vm_compute].
  exists (string_of_list_ascii s'). by apply string_of_list_ascii_inj_app.
Qed.

End redis_store.

(** ** [eval] after [str] *)

Section eval_of_str.

Lemma digits_from_acc (d : Decimal.uint) (acc : positive) :
  digits_from (Z.pos acc) (list_ascii_of_string (NilEmpty.string_of_uint d))
  = Z.pos (Pos.of_uint_acc d acc).
Proof.
  revert acc. unfold digits_from.
  induction d as [|d IH|d IH|d IH|d IH|d IH|d IH|d IH|d IH|d IH|d IH];
    intros acc; simpl; [done|..]; rewrite <- IH; f_equal; lia.
Qed.

Lemma digits_value_of_uint (d : Decimal.uint) :
  digits_value (list_ascii_of_string (NilEmpty.string_of_uint d))
  = Z.of_N (Pos.of_uint d).
Proof.
  unfold digits_value, digits_from.
  induction d as [|d IH|d IH|d IH|d IH|d IH|d IH|d IH|d IH|d IH|d IH];
    simpl; [done | exact IH | ..]; apply (digits_from_acc d).
Qed.

Lemma string_of_uint_digits (d : Decimal.uint) :
  forallb is_digit (list_ascii_of_string (NilEmpty.string_of_uint d)) = true.
Proof.
  induction d as [|d IH|d IH|d IH|d IH|d IH|d IH|d IH|d IH|d IH|d IH];
    simpl; [done|..]; exact IH.
Qed.

Lemma nzhead_not_D0 (d d' : Decimal.uint) : Decimal.nzhead d ≠ Decimal.D0 d'.
Proof. induction d; simpl; try discriminate. exact IHd. Qed.

Lemma to_uint_head (p : positive) :
  match Pos.to_uint p with
  | Decimal.Nil | Decimal.D0 _ => False
  | _ => True
  end.
Proof.
  pose proof (DecimalPos.Unsigned.to_of (Pos.to_uint p)) as Hnorm.
  rewrite DecimalPos.Unsigned.of_to in Hnorm. simpl in Hnorm.
  pose proof (DecimalPos.Unsigned.to_uint_nonnil p) as Hnil.
  pose proof (DecimalPos.Unsigned.to_uint_nonzero p) as Hzero.
  destruct (Pos.to_uint p) as [|d| | | | | | | | |] eqn:Hd; try done.
  unfold Decimal.unorm in Hnorm. simpl in Hnorm.
  destruct (Decimal.nzhead d) eqn:Hhead; try done.
  by destruct (nzhead_not_D0 d u).
Qed.

Lemma decimal_literal_to_uint (p : positive) :
  decimal_literal (NilEmpty.string_of_uint (Pos.to_uint p)) = Some (Z.pos p).
Proof.
  pose proof (to_uint_head p) as Hhead.
  pose proof (string_of_uint_digits (Pos.to_uint p)) as Hdigits.
  pose proof (digits_value_of_uint (Pos.to_uint p)) as Hvalue.
  rewrite DecimalPos.Unsigned.of_to in Hvalue.
  unfold decimal_literal.
  destruct (Pos.to_uint p); try done; simpl in *;
    rewrite Hdigits; simpl; by rewrite Hvalue.
Qed.

Lemma string_of_uint_to_uint (p : positive) :
  NilZero.string_of_uint (Pos.to_uint p) = NilEmpty.string_of_uint (Pos.to_uint p).
Proof.
  pose proof (to_uint_head p). by destruct (Pos.to_uint p).
Qed.

(** A string that starts with a digit or a minus sign is none of the
    constants, and one that starts with a minus sign is no decimal literal. *)
Lemma py_eval_decimal (s : string) (n : Z) :
  decimal_literal s = Some n → py_eval s = Returned (PyInt n).
Proof.
  intros Hlit. unfold py_eval. rewrite Hlit.
  assert (Hfirst : ∀ c rest, s = String c rest → is_digit c = true).
  { intros c rest ->. unfold decimal_literal in Hlit. simpl in Hlit.
    by destruct (is_digit c). }
  repeat case_decide; try done; subst; by specialize (Hfirst _ _ eq_refl).
Qed.

Lemma py_eval_negative (s : string) (n : Z) :
  decimal_literal s = Some n → py_eval (String "-" s) = Returned (PyInt (- n)).
Proof.
  intros Hlit. unfold py_eval.
  repeat case_decide; try done.
  replace (decimal_literal (String "-" s)) with (@None Z) by done.
  simpl. by rewrite Hlit.
Qed.

Lemma py_eval_py_str_int (n : Z) : py_eval (py_str (PyInt n)) = Returned (PyInt n).
Proof.
  destruct n as [|p|p]; simpl.
  - done.
  - rewrite string_of_uint_to_uint. apply py_eval_decimal, decimal_literal_to_uint.
  - rewrite string_of_uint_to_uint.
    apply (py_eval_negative _ (Z.pos p)), decimal_literal_to_uint.
Qed.


Lemma py_str_nonempty (v : pyvalue) :
  (∀ s, v ≠ PyStr s) → py_eval (py_str v) = Returned v ∧ py_str v ≠ "".
Proof.
  intros Hv.
  assert (Heval : py_eval (py_str v) = Returned v).
  { destruct v as [|[|]|n|s]; try done; [apply py_eval_py_str_int|].
    by destruct (Hv s). }
  split; [done|]. intros Hempty. by rewrite Hempty in Heval.
Qed.

End eval_of_str.

(** ** [cache_result] and [invalidate_pattern] *)

Section cache_result.
Import redis CacheManager.

Lemma truthy_true cached :
  truthy cached = true ↔ ∃ s, cached = Some s ∧ s ≠ "".
Proof.
  split.
  - destruct cached as [[|c s]|]; simpl; try done. intros _. by eexists.
  - intros ([|c s] & -> & Hs); done.
Qed.

Lemma wrapper_hit timeout key_prefix func now db args kwargs s :
  get now db (cache_key key_prefix args kwargs) = Some s → s ≠ "" →
  wrapper timeout key_prefix func now db args kwargs = Call (py_eval s) db 0.
Proof.
  intros Hget Hs. unfold wrapper. rewrite Hget.
  destruct s as [|c s]; done.
Qed.

Lemma wrapper_miss timeout key_prefix func now db args kwargs :
  truthy (get now db (cache_key key_prefix args kwargs)) = false → 0 < timeout →
  wrapper timeout key_prefix func now db args kwargs
  = Call (Returned (func args kwargs))
         (<[cache_key key_prefix args kwargs :=
              Entry (py_str (func args kwargs)) (now + timeout)]> db) 1.
Proof.
  intros Hmiss Ht. unfold wrapper, setex. rewrite Hmiss.
  by rewrite bool_decide_eq_true_2.
Qed.

(** Within the time to live a second call with the same arguments finds what
    the first one stored, provided the stored text is not empty; it then hands
    back whatever [eval] makes of that text. *)
Lemma cache_result_second_call timeout key_prefix func now db args kwargs now' :
  truthy (get now db (cache_key key_prefix args kwargs)) = false →
  0 < timeout → py_str (func args kwargs) ≠ "" → now' < now + timeout →
  let first := wrapper timeout key_prefix func now db args kwargs in
  let second := wrapper timeout key_prefix func now' (store first) args kwargs in
  answer first = Returned (func args kwargs) ∧
  invocations first = 1%nat ∧
  invocations second = 0%nat ∧
  answer second = py_eval (py_str (func args kwargs)) ∧
  store second = store first.
Proof.
  intros Hmiss Ht Hne Hnow first second. subst first second.
  rewrite (wrapper_miss _ _ _ now db) by done. simpl.
  rewrite (wrapper_hit _ _ _ _ _ _ _ (py_str (func args kwargs))); [done| |done].
  apply get_Some. eexists. rewrite lookup_insert_eq. split; [done|]. simpl. done.
Qed.

(** Once the time to live has elapsed the stored result is gone and the
    wrapped function is called again. *)
Lemma cache_result_after_expiry timeout key_prefix func now db args kwargs now' :
  truthy (get now db (cache_key key_prefix args kwargs)) = false →
  0 < timeout → now + timeout ≤ now' →
  let first := wrapper timeout key_prefix func now db args kwargs in
  get now' (store first) (cache_key key_prefix args kwargs) = None ∧
  invocations (wrapper timeout key_prefix func now' (store first) args kwargs) = 1%nat.
Proof.
  intros Hmiss Ht Hnow first. subst first.
  rewrite (wrapper_miss _ _ _ now db) by done. simpl.
  assert (Hgone : get now'
            (<[cache_key key_prefix args kwargs :=
                 Entry (py_str (func args kwargs)) (now + timeout)]> db)
            (cache_key key_prefix args kwargs) = None).
  { unfold get, live. rewrite lookup_insert_eq. simpl.
    by rewrite bool_decide_eq_false_2 by lia. }
  split; [done|].
  rewrite wrapper_miss; [done | by rewrite Hgone | done].
Qed.

(** What [invalidate_pattern] leaves in the store: it drops the live entries
    whose key matches the pattern behind the ["estimation_app:"] prefix and
    touches nothing else. *)
Lemma invalidate_pattern_lookup now (db : gmap string entry) pattern k :
  invalidate_pattern now db pattern !! k
  = match db !! k with
    | Some e =>
        if live now e && matches ("estimation_app:" +:+ pattern) k then None
        else Some e
    | None => None
    end.
Proof.
  unfold invalidate_pattern. rewrite foldl_delete_lookup.
  destruct (db !! k) as [e|] eqn:Hk.
  - destruct (live now e && matches ("estimation_app:" +:+ pattern) k) eqn:Hc.
    + rewrite bool_decide_eq_true_2; [done|].
      apply elem_of_scan_iter. exists e.
      apply andb_prop in Hc as [-> ->]. done.
    + rewrite bool_decide_eq_false_2; [done|].
      intros (e' & He' & Hl & Hm)%elem_of_scan_iter. simplify_eq.
      apply Is_true_true in Hl, Hm. by rewrite Hl, Hm in Hc.
  - case_bool_decide as Hin; [|done].
    apply elem_of_scan_iter in Hin as (e & ? & _). congruence.
Qed.

Lemma invalidate_pattern_keeps_other_namespaces now (db : gmap string entry) pattern k :
  strip_prefix "estimation_app:" k = None →
  invalidate_pattern now db pattern !! k = db !! k.
Proof.
  intros Hk. rewrite invalidate_pattern_lookup.
  destruct (db !! k) as [e|]; [|done].
  destruct (matches ("estimation_app:" +:+ pattern) k) eqn:Hm.
  - apply Is_true_true, matches_namespace in Hm as [rest ->]. done.
  - by rewrite andb_false_r.
Qed.

(** C1 (the code departs from it): reading the cache evaluates the stored
    text as code.  A cached function whose result is the string
    [__import__('os').system('id')] is called twice: the first call stores the
    string, the second call reads it back, does not call the function, and
    runs the shell command.  [_return_cached] does the same. *)
Theorem cache_read_evaluates_cached_text :
  let func := λ (_ : list pyvalue) (_ : list item),
                PyStr "__import__('os').system('id')" in
  let first := wrapper 300 "result" func 0 ∅ [PyInt 5] [] in
  let second := wrapper 300 "result" func 1 (store first) [PyInt 5] [] in
  answer first = Returned (PyStr "__import__('os').system('id')") ∧
  get 1 (store first) (cache_key "result" [PyInt 5] [])
    = Some "__import__('os').system('id')" ∧
  invocations second = 0%nat ∧
  answer second = RanCommand "id" ∧
  AIServiceOptimizer._return_cached "__import__('os').system('id')" = RanCommand "id".
Proof. vm_compute. by repeat split. Qed.

(** C4 (the code departs from it): a result whose [str] is empty is stored
    but never found again, because the hit test is the truth value of the
    stored text; two calls with the same arguments inside the time to live
    call the function twice. *)
Theorem cache_result_recomputes_empty_result :
  let func := λ (_ : list pyvalue) (_ : list item), PyStr "" in
  let first := wrapper 300 "est" func 0 ∅ [PyInt 5] [] in
  let second := wrapper 300 "est" func 1 (store first) [PyInt 5] [] in
  get 1 (store first) (cache_key "est" [PyInt 5] []) = Some "" ∧
  invocations first = 1%nat ∧
  invocations second = 1%nat ∧
  (invocations first + invocations second = 2)%nat.
Proof. vm_compute. by repeat split. Qed.

(** C5 (the code departs from it): [invalidate_pattern] only looks at keys
    that start with ["estimation_app:"], and [cache_result] writes its keys
    without that prefix; an entry written under the default prefix
    ["result"] survives every pattern. *)
Theorem invalidate_pattern_misses_cached_results
    (timeout : Z) (func : list pyvalue → list item → pyvalue)
    (now now' : Z) (db : gmap string entry)
    (args : list pyvalue) (kwargs : list item) (pattern : string) :
  let written := store (wrapper timeout "result" func now db args kwargs) in
  invalidate_pattern now' written pattern !! cache_key "result" args kwargs
  = written !! cache_key "result" args kwargs.
Proof. intros written. by apply invalidate_pattern_keeps_other_namespaces. Qed.

(** C6 (the code departs from it): what is stored is [str(result)] and what
    is read back is [eval] of it, which is not the identity: the string
    ["1"] comes back as the integer [1].  After the time to live the entry is
    absent. *)
Theorem cache_round_trip_changes_value :
  let func := λ (_ : list pyvalue) (_ : list item), PyStr "1" in
  let first := wrapper 300 "est" func 0 ∅ [PyInt 5] [] in
  let second := wrapper 300 "est" func 1 (store first) [PyInt 5] [] in
  answer first = Returned (PyStr "1") ∧
  invocations second = 0%nat ∧
  answer second = Returned (PyInt 1) ∧
  get 300 (store first) (cache_key "est" [PyInt 5] []) = None.
Proof. vm_compute. by repeat split. Qed.

(** [invalidate_pattern] removes exactly the live entries whose key matches
    ["estimation_app:" + pattern] and leaves every other entry as it was. *)
Theorem invalidate_pattern_frame now (db : gmap string entry) pattern k :
  invalidate_pattern now db pattern !! k
  = match db !! k with
    | Some e =>
        if live now e && matches ("estimation_app:" +:+ pattern) k then None
        else Some e
    | None => None
    end.
Proof. apply invalidate_pattern_lookup. Qed.





(** The scenario of [test_cache_manager]: [expensive_function(5)] is computed
    once, stored as ["10"] under ["test:" + md5("5")], and the second call
    reads [10] back without calling the function. *)
Theorem test_cache_manager_scenario :
  let expensive_function := λ (args : list pyvalue) (_ : list item),
                              match args with
                              | [PyInt x] => PyInt (x * 2)
                              | _ => PyNone
                              end in
  let first := wrapper 60 "test" expensive_function 0 ∅ [PyInt 5] [] in
  let second := wrapper 60 "test" expensive_function 1 (store first) [PyInt 5] [] in
  answer first = Returned (PyInt 10) ∧
  get 1 (store first) "test:e4da3b7fbbce2345d7772b0674a318d5" = Some "10" ∧
  answer second = Returned (PyInt 10) ∧
  (invocations first + invocations second = 1)%nat.
Proof. vm_compute. by repeat split. Qed.

End cache_result.

(** ** The Celery tasks *)

Section process_image.
Import AsyncProcessor.
Variable analyze_image_with_ai : nat → string → pyvalue + failure.
Variable update_estimate_with_results : string → pyvalue → option failure.

(** C7 (as amended): a job runs the body of [process_image_task] exactly
    once, whatever happens: nothing in the task asks for a retry.  When the
    analysis and the update succeed the job ends in [SUCCESS] and
    [update_estimate_with_results] has been called exactly once; when the
    analysis raises, be the failure transient or permanent, the job goes
    straight to [FAILURE] and the estimate is not touched. *)
Theorem process_image_runs_once (image_path estimate_id : string) :
  let j := run_job (process_image_task analyze_image_with_ai
                      update_estimate_with_results image_path estimate_id) in
  attempts j = 1%nat ∧
  ai_calls (observed j) = 1%nat ∧
  match analyze_image_with_ai 0 image_path with
  | inr f =>
      final_state j = FAILURE ∧ error j = Some f ∧ result j = None ∧
      estimate_updates (observed j) = []
  | inl r =>
      estimate_updates (observed j) = [(estimate_id, r)] ∧
      match update_estimate_with_results estimate_id r with
      | None => final_state j = SUCCESS ∧ result j = Some r ∧ error j = None
      | Some f => final_state j = FAILURE ∧ error j = Some f ∧ result j = None
      end
  end.
Proof.
  intros j. subst j.
  unfold run_job, max_retries, process_image_task. simpl.
  destruct (analyze_image_with_ai 0 image_path) as [r|f]; simpl; [|done].
  destruct (update_estimate_with_results estimate_id r) as [f|]; done.
Qed.

End process_image.

(** C7 fails as stated: the analysis fails once with a transient failure and
    would succeed at the next call; the job ends in [FAILURE] after one
    attempt, with no estimate updated. *)
Lemma process_image_not_retried :
  let analyze := λ (calls : nat) (_ : string),
                   match calls with
                   | O => inr AsyncProcessor.Transient
                   | S _ => inl (PyStr "panel")
                   end in
  let j := AsyncProcessor.run_job
             (AsyncProcessor.process_image_task analyze (λ _ _, None) "img.png" "E1") in
  analyze 1%nat "img.png" = inl (PyStr "panel") ∧
  AsyncProcessor.final_state j = AsyncProcessor.FAILURE ∧
  AsyncProcessor.attempts j = 1%nat ∧
  AsyncProcessor.estimate_updates (AsyncProcessor.observed j) = [].
Proof. vm_compute. by repeat split. Qed.

Section batch_process.
Import AsyncProcessor.
Context {Item Result : Type}.
Variable process_single_item : Item → Result + failure.

Local Abbreviation processed := (processed process_single_item).
Local Abbreviation results_of := (results_of process_single_item).
Local Abbreviation batch_loop := (batch_loop process_single_item).

Lemma batch_loop_all_processed total items : ∀ i results w,
  Forall processed items →
  batch_loop total i items results w
  = (Returns (results ++ results_of items),
     World (state_updates w ++ reports total (i + 1) (length items))
           (estimate_updates w) (ai_calls w)).
Proof.
  induction items as [|item rest IH]; intros i results w Hall; simpl.
  { rewrite !app_nil_r. by destruct w. }
  apply Forall_cons in Hall as [[r Hr] Hall].
  unfold AsyncProcessor.results_of. simpl. rewrite Hr. simpl.
  rewrite IH by done. unfold update_state. simpl.
  rewrite <- !app_assoc. simpl.
  by replace (S i + 1)%nat with (S (i + 1)) by lia.
Qed.

Lemma batch_loop_failure total good bad rest f : ∀ i results w,
  Forall processed good → process_single_item bad = inr f →
  batch_loop total i (good ++ bad :: rest) results w
  = (Raises f,
     World (state_updates w ++ reports total (i + 1) (length good + 1))
           (estimate_updates w) (ai_calls w)).
Proof.
  induction good as [|item good IH]; intros i results w Hall Hbad; simpl.
  { by rewrite Hbad. }
  apply Forall_cons in Hall as [[r Hr] Hall].
  rewrite Hr, IH by done. unfold update_state. simpl.
  rewrite <- !app_assoc. simpl.
  by replace (S i + 1)%nat with (S (i + 1)) by lia.
Qed.

Lemma first_failure (items : list Item) :
  Forall processed items ∨
  ∃ good bad rest f,
    items = good ++ bad :: rest ∧ Forall processed good ∧
    process_single_item bad = inr f.
Proof.
  induction items as [|item items IH]; [by left|].
  destruct (process_single_item item) as [r|f] eqn:Hitem.
  - destruct IH as [Hall|(good & bad & rest & f & -> & Hgood & Hbad)].
    + left. constructor; [by exists r | done].
    + right. exists (item :: good), bad, rest, f.
      split; [done|]. split; [|done]. constructor; [by exists r | done].
  - right. by exists [], item, items, f.
Qed.

Lemma progress_of_reports pre total first count post :
  Forall (λ u, ∀ c t, u.2 ≠ Progress c t) pre →
  Forall (λ u, ∀ c t, u.2 ≠ Progress c t) post →
  progress_of (World (pre ++ reports total first count ++ post) [] 0)
  = (λ k, (k, total)) <$> seq first count.
Proof.
  intros Hpre Hpost. unfold progress_of. simpl.
  assert (Hnone : ∀ l : list (task_state * meta),
            Forall (λ u, ∀ c t, u.2 ≠ Progress c t) l →
            omap (λ u, match u.2 with
                       | Progress c t => Some (c, t)
                       | _ => None
                       end) l = []).
  { induction 1 as [|[st m] l Hm _ IH]; [done|].
    destruct m as [| |c t]; [exact IH | exact IH | by destruct (Hm c t)]. }
  rewrite !omap_app, (Hnone pre), (Hnone post), app_nil_r by done. simpl.
  unfold reports. generalize first. clear.
  induction count as [|count IH]; intros first; simpl; [done|].
  by rewrite IH.
Qed.

Lemma run_batch_all_processed (items : list Item) :
  Forall processed items →
  run_job (batch_process_task process_single_item items)
  = Job SUCCESS (Some (results_of items)) None 1
        (World ([(STARTED, NoMeta)] ++ reports (length items) 1 (length items)
                  ++ [(SUCCESS, NoMeta)]) [] 0).
Proof.
  intros Hall. unfold run_job, batch_process_task, max_retries. simpl.
  rewrite batch_loop_all_processed by done. simpl.
  unfold update_state. simpl. done.
Qed.

Lemma run_batch_failure (good : list Item) bad rest f :
  Forall processed good → process_single_item bad = inr f →
  run_job (batch_process_task process_single_item (good ++ bad :: rest))
  = Job FAILURE None (Some f) 1
        (World ([(STARTED, NoMeta)]
                  ++ reports (length (good ++ bad :: rest)) 1 (length good + 1)
                  ++ [(FAILURE, NoMeta)]) [] 0).
Proof.
  intros Hgood Hbad. unfold run_job, batch_process_task, max_retries. simpl.
  rewrite (batch_loop_failure _ good bad rest f) by done. simpl.
  unfold update_state. simpl. done.
Qed.

Lemma no_progress_in (st : task_state) :
  Forall (λ u : task_state * meta, ∀ c t, u.2 ≠ Progress c t) [(st, NoMeta)].
Proof. by repeat constructor. Qed.

(** C8 (as amended): the progress reports of a batch of [n] items are
    [1/n], [2/n], ... in this order.  When every item is processed without an
    exception all [n] reports are written and the job ends in [SUCCESS] with
    the results in order; when an item raises, the reports stop at that item
    and the job ends in [FAILURE].  In every case the reports written are an
    initial part of [1/n], ..., [n/n], so they increase. *)
Theorem batch_progress_in_order (items : list Item) :
  let n := length items in
  let j := run_job (batch_process_task process_single_item items) in
  (Forall processed items →
     progress_of (observed j) = (λ k, (k, n)) <$> seq 1 n ∧
     final_state j = SUCCESS ∧ result j = Some (results_of items)) ∧
  (∀ good bad rest f,
     items = good ++ bad :: rest → Forall processed good →
     process_single_item bad = inr f →
     progress_of (observed j) = (λ k, (k, n)) <$> seq 1 (length good + 1) ∧
     final_state j = FAILURE ∧ error j = Some f) ∧
  (∃ count, count ≤ n ∧
     progress_of (observed j) = (λ k, (k, n)) <$> seq 1 count)%nat.
Proof.
  intros n j. subst n j.
  assert (Hok : Forall processed items →
    progress_of (observed (run_job (batch_process_task process_single_item items)))
      = (λ k, (k, length items)) <$> seq 1 (length items) ∧
    final_state (run_job (batch_process_task process_single_item items)) = SUCCESS ∧
    result (run_job (batch_process_task process_single_item items))
      = Some (results_of items)).
  { intros Hall. rewrite run_batch_all_processed by done. simpl.
    split; [|done].
    apply (progress_of_reports [(STARTED, NoMeta)] _ _ _ [(SUCCESS, NoMeta)]);
      apply no_progress_in. }
  assert (Hfail : ∀ good bad rest f,
    items = good ++ bad :: rest → Forall processed good →
    process_single_item bad = inr f →
    progress_of (observed (run_job (batch_process_task process_single_item items)))
      = (λ k, (k, length items)) <$> seq 1 (length good + 1) ∧
    final_state (run_job (batch_process_task process_single_item items)) = FAILURE ∧
    error (run_job (batch_process_task process_single_item items)) = Some f).
  { intros good bad rest f -> Hgood Hbad.
    rewrite (run_batch_failure good bad rest f) by done. simpl.
    split; [|done].
    apply (progress_of_reports [(STARTED, NoMeta)] _ _ _ [(FAILURE, NoMeta)]);
      apply no_progress_in. }
  split; [exact Hok|]. split; [exact Hfail|].
  destruct (first_failure items) as [Hall|(good & bad & rest & f & Heq & Hgood & Hbad)].
  - exists (length items). split; [lia|]. by apply Hok.
  - exists (length good + 1)%nat. split.
    + rewrite Heq, length_app. simpl. lia.
    + by apply (Hfail good bad rest f).
Qed.

End batch_process.

Lemma batch_progress_in_order_witness :
  let process := λ n : nat, inl (n * 10)%nat : nat + AsyncProcessor.failure in
  let j := AsyncProcessor.run_job
             (AsyncProcessor.batch_process_task process [1; 2; 3]%nat) in
  Forall (AsyncProcessor.processed process) [1; 2; 3]%nat ∧
  AsyncProcessor.progress_of (AsyncProcessor.observed j)
    = [(1, 3); (2, 3); (3, 3)]%nat ∧
  AsyncProcessor.final_state j = AsyncProcessor.SUCCESS ∧
  AsyncProcessor.result j = Some [10; 20; 30]%nat.
Proof.
  intros process j.
  assert (Hall : Forall (AsyncProcessor.processed process) [1; 2; 3]%nat).
  { repeat constructor; eexists; reflexivity. }
  split; [exact Hall|].
  exact (proj1 (batch_progress_in_order process [1; 2; 3]%nat) Hall).
Defined.

(** C8 fails as stated: in a batch of three items whose second item raises,
    the reports written before the job reaches its final state are [1/3] and
    [2/3] only, and that state is [FAILURE]. *)
Lemma batch_progress_stops_at_failure :
  let process := λ n : nat,
                   match n with
                   | 2%nat => inr AsyncProcessor.Permanent
                   | _ => inl (n * 10)%nat
                   end in
  let j := AsyncProcessor.run_job
             (AsyncProcessor.batch_process_task process [1; 2; 3]%nat) in
  AsyncProcessor.progress_of (AsyncProcessor.observed j) = [(1, 3); (2, 3)]%nat ∧
  AsyncProcessor.progress_of (AsyncProcessor.observed j)
    ≠ [(1, 3); (2, 3); (3, 3)]%nat ∧
  AsyncProcessor.final_state j = AsyncProcessor.FAILURE.
Proof. vm_compute. split; [done|]. split; [discriminate | done]. Qed.

(** ** The performance monitor *)

Section monitor_facts.
Import PerformanceMonitor.
Context {float : Type}.
Variable fsub fadd fmin fmax : float → float → float.
Variable fdiv : float → nat → float.
Variable fzero : float.
Variable exceeds5 : float → bool.

Local Abbreviation record_sample := (record_sample fsub exceeds5).
Local Abbreviation track_time := (track_time fsub exceeds5).
Local Abbreviation get_statistics := (get_statistics fadd fmin fmax fdiv fzero).

(** The samples of an operation; an operation without an entry has none. *)
Lemma record_sample_metrics operation_name start_time (w : world) :
  metrics (record_sample operation_name start_time w)
  = <[operation_name :=
        default [] (metrics w !! operation_name) ++ [fsub (clock w) start_time]]>
      (metrics w).
Proof.
  unfold PerformanceMonitor.record_sample. simpl.
  apply map_eq. intros name.
  destruct (decide (name = operation_name)) as [->|Hne].
  - rewrite lookup_insert_eq, lookup_alter_eq. case_bool_decide as Hin.
    + apply elem_of_dom in Hin as [times Htimes]. by rewrite Htimes.
    + apply not_elem_of_dom in Hin. by rewrite lookup_insert_eq, Hin.
  - rewrite lookup_insert_ne, lookup_alter_ne by done.
    case_bool_decide; [done | by rewrite lookup_insert_ne].
Qed.

Lemma record_sample_keeps_nonempty operation_name start_time (w : world) :
  samples_nonempty (metrics w) →
  samples_nonempty (metrics (record_sample operation_name start_time w)).
Proof.
  intros Hok name times. rewrite record_sample_metrics.
  destruct (decide (name = operation_name)) as [->|Hne].
  - rewrite lookup_insert_eq. intros [= <-].
    by destruct (default [] (metrics w !! operation_name)).
  - rewrite lookup_insert_ne by done. apply Hok.
Qed.

(** C9: whatever the body of the [with] block does and however it ends,
    [track_time] hands the body's way of ending on to the caller (an
    exception goes on propagating) and appends exactly one sample, the time
    the body took, to the samples of the operation; the samples of every
    other operation are left as the body left them. *)
Theorem track_time_records_one_sample
    (operation_name : string) (body : world → exit * world) (w : world) :
  let after_body := (body w).2 in
  let duration := fsub (clock after_body) (clock w) in
  let ended := track_time operation_name body w in
  ended.1 = (body w).1 ∧
  metrics ended.2 !! operation_name
    = Some (default [] (metrics after_body !! operation_name) ++ [duration]) ∧
  (∀ other, other ≠ operation_name →
     metrics ended.2 !! other = metrics after_body !! other) ∧
  clock ended.2 = clock after_body.
Proof.
  intros after_body duration ended. subst after_body duration ended.
  unfold PerformanceMonitor.track_time.
  destruct (body w) as [e w'] eqn:Hbody. cbn [fst snd].
  rewrite record_sample_metrics.
  split; [done|]. split; [by rewrite lookup_insert_eq|].
  split; [|done]. intros other Hne. by rewrite lookup_insert_ne.
Qed.

(** C10: every entry of the metrics dict holds at least one sample: this is
    so for the empty dict a monitor starts with, and [track_time] keeps it so
    whenever the body does.  Under it [get_statistics] raises nothing: it
    gives the empty dict for an operation without an entry, and otherwise the
    statistics, computed with a count of at least one. *)
Theorem get_statistics_total :
  samples_nonempty (∅ : gmap string (list float)) ∧
  (∀ operation_name (body : world → exit * world) (w : world),
     samples_nonempty (metrics (body w).2) →
     samples_nonempty (metrics (track_time operation_name body w).2)) ∧
  (∀ (m : gmap string (list float)) operation_name,
     samples_nonempty m →
     match m !! operation_name with
     | None => get_statistics m operation_name = EmptyDict
     | Some times =>
         (1 ≤ length times)%nat ∧
         ∃ lo hi,
           py_min fmin times = Some lo ∧ py_max fmax times = Some hi ∧
           get_statistics m operation_name
           = Stats (length times) (py_sum fadd fzero times)
                   (fdiv (py_sum fadd fzero times) (length times)) lo hi
     end).
Proof.
  split; [|split].
  - intros name times Hlookup. by rewrite lookup_empty in Hlookup.
  - intros operation_name body w Hbody.
    unfold PerformanceMonitor.track_time. destruct (body w) as [e w'].
    cbn [fst snd] in *. by apply record_sample_keeps_nonempty.
  - intros m operation_name Hok. unfold PerformanceMonitor.get_statistics.
    destruct (m !! operation_name) as [times|] eqn:Hlookup; [|done].
    destruct times as [|t times]; [by destruct (Hok _ _ Hlookup)|].
    simpl. split; [lia|]. eauto.
Qed.

End monitor_facts.

Lemma get_statistics_total_witness :
  let m : gmap string (list Z) := {["get_estimate" := [2; 7]]} in
  PerformanceMonitor.samples_nonempty m ∧
  PerformanceMonitor.get_statistics Z.add Z.min Z.max (λ t n, t / Z.of_nat n) 0
    m "get_estimate"
  = PerformanceMonitor.Stats 2 9 4 2 7.
Proof.
  intros m.
  assert (Hok : PerformanceMonitor.samples_nonempty m).
  { intros name times Hlookup. subst m.
    apply lookup_singleton_Some in Hlookup as [_ <-]. done. }
  split; [exact Hok|].
  pose proof (proj2 (proj2 (get_statistics_total Z.sub Z.add Z.min Z.max
                              (λ t n, t / Z.of_nat n) 0 (λ d, 5 <? d)))
                m "get_estimate" Hok) as Hstats.
  vm_compute in Hstats. destruct Hstats as [_ (lo & hi & Hlo & Hhi & Hstats)].
  injection Hlo as <-. injection Hhi as <-. vm_compute. exact Hstats.
Defined.

(** A body that advances the clock by seven seconds and raises: the sample is
    recorded, a warning is logged, and the exception goes on. *)
Example track_time_on_error :
  let body := λ w : @PerformanceMonitor.world Z,
                (PerformanceMonitor.Exception "TimeoutError",
                 PerformanceMonitor.World (PerformanceMonitor.metrics w)
                   (PerformanceMonitor.clock w + 7) (PerformanceMonitor.logged w)) in
  let ended := PerformanceMonitor.track_time Z.sub (λ d, 5 <? d) "get_estimate" body
                 (PerformanceMonitor.World {["get_estimate" := [2]]} 100 []) in
  ended.1 = PerformanceMonitor.Exception "TimeoutError" ∧
  PerformanceMonitor.metrics ended.2 !! "get_estimate" = Some [2; 7] ∧
  PerformanceMonitor.logged ended.2
  = [(PerformanceMonitor.INFO, "get_estimate", 7);
     (PerformanceMonitor.WARNING, "get_estimate", 7)].
Proof. vm_compute. by repeat split. Qed.

(** ** Pagination *)

Section pagination.
Import QueryOptimizer.
Context {Estimate : Type}.
Variable project_id_of : Estimate → option string.
Variable created_at : Estimate → Z.

Local Abbreviation paginate := (get_estimates_paginated project_id_of created_at).
Local Abbreviation ordered := (order_by_created_at_desc created_at).
Local Abbreviation matching := (filtered project_id_of).

Lemma paginate_page rows page per_page project_id :
  1 ≤ page → 1 ≤ per_page →
  paginate rows page per_page project_id
  = Page (take (Z.to_nat per_page)
            (drop (Z.to_nat ((page - 1) * per_page))
               (ordered (matching rows project_id))))
         (Z.of_nat (length (matching rows project_id))) page per_page
         ((Z.of_nat (length (matching rows project_id)) + per_page - 1) `div` per_page).
Proof.
  intros Hpage Hper. unfold get_estimates_paginated.
  rewrite bool_decide_eq_false_2 by nia.
  by rewrite bool_decide_eq_false_2 by lia.
Qed.

Lemma ordered_length (rows : list Estimate) : length (ordered rows) = length rows.
Proof. unfold order_by_created_at_desc. by rewrite merge_sort_Permutation. Qed.

Lemma ceiling_bounds (total per_page : Z) :
  0 ≤ total → 1 ≤ per_page →
  let pages := (total + per_page - 1) `div` per_page in
  (pages - 1) * per_page < total ≤ pages * per_page ∧ 0 ≤ pages.
Proof.
  intros Htotal Hper pages. subst pages.
  pose proof (Z.div_mod (total + per_page - 1) per_page ltac:(lia)) as Hdm.
  pose proof (Z.mod_pos_bound (total + per_page - 1) per_page ltac:(lia)) as Hmod.
  split; [nia|]. apply Z.div_pos; lia.
Qed.

Lemma take_pages {A} (l : list A) (k n : nat) :
  mjoin ((λ i, take k (drop (i * k) l)) <$> seq 0 n) = take (n * k) l.
Proof.
  induction n as [|n IH]; [done|].
  rewrite seq_S, fmap_app, join_app, IH. simpl. rewrite app_nil_r.
  replace (k + n * k)%nat with (n * k + k)%nat by lia.
  apply take_take_drop.
Qed.





End pagination.





(** ** The database session *)

Section session_facts.
Import DatabaseOptimizer.
Local Set Warnings "-clear-no-such-hyp".

(** Whatever the block under [with] and the session's own methods do, the
    session is closed: [close] is called exactly once and it is the last
    call made on the session. *)
Theorem optimized_session_closes_last body commit rollback close :
  ∃ calls,
    (optimized_session body commit rollback close).1 = calls ++ [Close] ∧
    Close ∉ calls.
Proof.
  unfold optimized_session.
  destruct body as [[?|?]|]; [| |destruct commit as [[?|?]|]]; simpl;
    first [ exists []; split; [reflexivity | apply not_elem_of_nil]
          | exists [Commit]; split; [reflexivity | apply (bool_decide_unpack _); by vm_compute]
          | exists [Rollback]; split; [reflexivity | apply (bool_decide_unpack _); by vm_compute]
          | exists [Commit; Rollback]; split; [reflexivity | apply (bool_decide_unpack _); by vm_compute] ].
Qed.

Local Ltac session_case := naive_solver.

(** [commit] is attempted exactly when the block completes, and then it is
    the first call; [rollback] is called exactly when the block or the
    commit raises an [Exception] (not for a [KeyboardInterrupt] or another
    [BaseException]), never more than once.  The [with] statement completes
    only if the block, the commit and the close all did; otherwise, as long
    as [rollback] and [close] return, the caller gets what the block (or the
    commit) raised. *)
Theorem optimized_session_commits_or_rolls_back body commit rollback close :
  let '(calls, outcome) := optimized_session body commit rollback close in
  let failed := match body with Some r => Some r | None => commit end in
  (Commit ∈ calls ↔ body = None) ∧
  (Rollback ∈ calls ↔ ∃ name, failed = Some (Exception name)) ∧
  calls `sublist_of` [Commit; Rollback; Close] ∧
  (outcome = None ↔ body = None ∧ commit = None ∧ close = None) ∧
  (close = None →
   (failed = None ∨ rollback = None ∨ ∃ name, failed = Some (BaseException name)) →
   outcome = failed).
Proof.
  unfold optimized_session.
  assert (Hsub1 : [Commit; Close] `sublist_of` [Commit; Rollback; Close])
    by (apply sublist_skip, sublist_cons, sublist_skip; constructor).
  assert (Hsub2 : [Rollback; Close] `sublist_of` [Commit; Rollback; Close])
    by (apply sublist_cons; reflexivity).
  assert (Hsub3 : [Close] `sublist_of` [Commit; Rollback; Close])
    by (do 2 apply sublist_cons; reflexivity).
  destruct body as [[?|?]|]; [| |destruct commit as [[?|?]|]];
    destruct rollback as [?|], close as [?|]; simpl;
    rewrite ?elem_of_cons, ?elem_of_nil;
    (split; [session_case|]); (split; [session_case|]);
    (split; [done|]); (split; [session_case|]); session_case.
Qed.

End session_facts.

(** ** Uploads *)

Section upload_facts.
Import security_fixes.

Lemma lower_char_dot c : Ascii.eqb (lower_char c) "." = Ascii.eqb c ".".
Proof.
  destruct c as [[] [] [] [] [] [] [] []]; reflexivity.
Qed.

Lemma lower_char_idemp c : lower_char (lower_char c) = lower_char c.
Proof.
  destruct c as [[] [] [] [] [] [] [] []]; reflexivity.
Qed.

Lemma lower_idemp s : lower (lower s) = lower s.
Proof. induction s as [|c s IH]; simpl; [done|]. by rewrite lower_char_idemp, IH. Qed.

Lemma has_dot_lower s : has_dot (lower s) = has_dot s.
Proof. induction s as [|c s IH]; simpl; [done|]. by rewrite lower_char_dot, IH. Qed.

Lemma rsplit_dot_cases s :
  (has_dot s = false ∧ rsplit_dot s = [s]) ∨
  (has_dot s = true ∧
   ∃ stem ext, rsplit_dot s = [stem; ext] ∧ s = stem +:+ "." +:+ ext ∧
               has_dot ext = false).
Proof.
  induction s as [|c s IH]; simpl; [by left|].
  destruct IH as [[Hno ->]|[Hdot (stem & ext & -> & Hs & Hext)]].
  - destruct (Ascii.eqb_spec c ".") as [->|Hc]; simpl.
    + right. split; [done|]. by exists EmptyString, s.
    + left. by rewrite Hno.
  - right. rewrite Hdot, orb_true_r. split; [done|].
    exists (String c stem), ext. by rewrite Hs.
Qed.

Lemma has_dot_app stem ext : has_dot (stem +:+ "." +:+ ext) = true.
Proof.
  induction stem as [|c stem IH]; [done|].
  change (has_dot (String c (stem +:+ "." +:+ ext)) = true).
  simpl. by rewrite IH, orb_true_r.
Qed.

Lemma rsplit_dot_app stem ext :
  has_dot ext = false → rsplit_dot (stem +:+ "." +:+ ext) = [stem; ext].
Proof.
  intros Hext. induction stem as [|c stem IH].
  - change (rsplit_dot (String "." ext) = [EmptyString; ext]). simpl.
    destruct (rsplit_dot_cases ext) as [[_ ->]|[Hdot _]]; [done|congruence].
  - change (rsplit_dot (String c (stem +:+ "." +:+ ext)) = [String c stem; ext]).
    simpl. by rewrite IH.
Qed.

Lemma rsplit_dot_lower s : rsplit_dot (lower s) = lower <$> rsplit_dot s.
Proof.
  induction s as [|c s IH]; simpl; [done|].
  rewrite IH, lower_char_dot.
  destruct (rsplit_dot s) as [|head [|tail [|? ?]]]; simpl; try done;
    by destruct (Ascii.eqb c ".").
Qed.

Lemma allowed_file_spec name :
  allowed_file name = true ↔
  ∃ stem ext, name = stem +:+ "." +:+ ext ∧ has_dot ext = false ∧
              lower ext ∈ SecurityConfig.ALLOWED_EXTENSIONS.
Proof.
  unfold allowed_file. split.
  - destruct (rsplit_dot_cases name) as [[-> _]|[-> (stem & ext & -> & -> & Hext)]];
      [done|]. simpl. intros Hin%bool_decide_eq_true. eauto.
  - intros (stem & ext & -> & Hext & Hin).
    rewrite has_dot_app, rsplit_dot_app by done. simpl.
    by apply bool_decide_eq_true.
Qed.

(** Only what follows the last dot of a name counts: whatever comes before
    it, further dots and extensions included, a name is allowed exactly
    when that last extension, lowered, is one of the five allowed ones. *)
Theorem allowed_file_last_extension stem ext :
  has_dot ext = false →
  allowed_file (stem +:+ "." +:+ ext)
  = bool_decide (lower ext ∈ SecurityConfig.ALLOWED_EXTENSIONS).
Proof.
  intros Hext. unfold allowed_file.
  by rewrite has_dot_app, rsplit_dot_app.
Qed.

(** The case of the letters of a name is of no account. *)
Theorem allowed_file_ignores_case name :
  allowed_file (lower name) = allowed_file name.
Proof.
  unfold allowed_file. rewrite has_dot_lower, rsplit_dot_lower.
  rewrite list_lookup_fmap.
  destruct (rsplit_dot name !! 1%nat) as [ext|]; simpl; [|done].
  by rewrite lower_idemp.
Qed.

Section validate.
Variable secure_filename : string → string.

(** An upload is accepted exactly when there is a file with a name, the
    secured name is not empty and ends in a dot and an allowed extension,
    and the stream holds at most 10 MiB (10485760 bytes are accepted); the
    name handed back is the secured one. *)
Theorem validate_file_upload_valid file name :
  validate_file_upload secure_filename file = Valid name ↔
  ∃ f, file = Some f ∧ filename f ≠ EmptyString ∧
       name = secure_filename (filename f) ∧
       (∃ stem ext, name = stem +:+ "." +:+ ext ∧ has_dot ext = false ∧
                    lower ext ∈ SecurityConfig.ALLOWED_EXTENSIONS) ∧
       size f ≤ 10485760.
Proof.
  unfold validate_file_upload. split.
  - destruct file as [f|]; [|done].
    case_bool_decide as Hname; [done|].
    case_bool_decide as Hsecure; [done|].
    destruct (allowed_file (secure_filename (filename f))) eqn:Hallowed; [|done].
    simpl. destruct (Z.ltb_spec SecurityConfig.MAX_FILE_SIZE (size f)) as [|Hsize];
      [done|].
    intros [= <-]. exists f. apply allowed_file_spec in Hallowed.
    unfold SecurityConfig.MAX_FILE_SIZE in Hsize. eauto 10 with lia.
  - intros (f & -> & Hname & -> & Hext & Hsize).
    apply allowed_file_spec in Hext.
    rewrite bool_decide_eq_false_2 by done.
    case_bool_decide as Hsecure.
    { rewrite Hsecure in Hext. done. }
    rewrite Hext. simpl.
    destruct (Z.ltb_spec SecurityConfig.MAX_FILE_SIZE (size f)) as [Hlt|]; [|done].
    unfold SecurityConfig.MAX_FILE_SIZE in Hlt. lia.
Qed.

(** The checks are made in a fixed order and the first that fails gives the
    answer: the size of a file whose type is refused is never looked at, and
    a file is reported too large only if its name and type passed. *)
Theorem validate_file_upload_refusals file :
  let answer := validate_file_upload secure_filename file in
  let name := secure_filename (from_option filename EmptyString file) in
  (answer = Invalid NoFileProvided ↔
     from_option filename EmptyString file = EmptyString) ∧
  (answer = Invalid InvalidFilename ↔
     from_option filename EmptyString file ≠ EmptyString ∧ name = EmptyString) ∧
  (answer = Invalid FileTypeNotAllowed ↔
     from_option filename EmptyString file ≠ EmptyString ∧ name ≠ EmptyString ∧
     allowed_file name = false) ∧
  (answer = Invalid FileSizeExceeds ↔
     from_option filename EmptyString file ≠ EmptyString ∧
     allowed_file name = true ∧ 10485760 < from_option size 0 file).
Proof.
  unfold validate_file_upload. destruct file as [f|]; simpl.
  2:{ intuition (first [congruence | done]). }
  case_bool_decide as Hname.
  { intuition (first [congruence | done]). }
  case_bool_decide as Hsecure.
  { rewrite Hsecure. intuition (first [congruence | done]). }
  destruct (allowed_file (secure_filename (filename f))) eqn:Hallowed; simpl.
  2:{ intuition (first [congruence | done]). }
  destruct (Z.ltb_spec SecurityConfig.MAX_FILE_SIZE (size f)) as [Hlt|Hge];
    unfold SecurityConfig.MAX_FILE_SIZE in *;
    intuition (first [congruence | lia | done]).
Qed.

End validate.

End upload_facts.

Lemma allowed_file_last_extension_witness :
  security_fixes.has_dot "JPG" = false ∧
  security_fixes.allowed_file ("shell.php" +:+ "." +:+ "JPG") = true.
Proof.
  assert (Hext : security_fixes.has_dot "JPG" = false) by reflexivity.
  split; [exact Hext|].
  rewrite (allowed_file_last_extension "shell.php" "JPG" Hext).
  vm_compute. reflexivity.
Defined.

(** ** Estimate input *)

Section estimate_input_facts.
Import security_fixes.
Variable float_of_str : string → option pyfloat.

Local Abbreviation validate := (validate_estimate_input float_of_str).

Lemma empty_has_no_length v n :
  is_true v = false → py_len v = Some n → n = 0.
Proof.
  destruct v as [| | | |s|items|items]; simpl; try done.
  - case_bool_decide as Hs; [|done]. intros _ [= <-]. by rewrite Hs.
  - case_bool_decide as Hs; [|done]. intros _ [= <-]. by rewrite Hs.
  - case_bool_decide as Hs; [|done]. intros _ [= <-]. by rewrite Hs.
Qed.

Lemma overflow_threshold n : 2 ^ 1024 ≤ Z.abs n → ¬ Z.abs n < 2 ^ 1024 - 2 ^ 970.
Proof.
  assert (H : 2 ^ 1024 - 2 ^ 970 ≤ 2 ^ 1024) by (apply Z.leb_le; vm_compute; reflexivity).
  revert H. generalize (2 ^ 1024) (2 ^ 1024 - 2 ^ 970). lia.
Qed.

Local Ltac lookups data :=
  unfold validate_estimate_input, required_errors, length_errors; simpl;
  destruct (data !! "project_name") as [name|] eqn:Hname;
  destruct (data !! "description") as [description|] eqn:Hdescription;
  destruct (data !! "labor_hours") as [hours|] eqn:Hhours.

(** The input is accepted, with no error, exactly when the project name and
    the description are present, true and have a length of at most 200 and
    1000 (a name of exactly 200 characters passes), and the labor hours are
    absent or convert to a float that is neither below 0 nor above 10000. *)
Theorem validate_estimate_input_accepts data :
  validate data = Errors [] ↔
  (∃ v n, data !! "project_name" = Some v ∧ is_true v = true ∧
          py_len v = Some n ∧ n ≤ 200) ∧
  (∃ v n, data !! "description" = Some v ∧ is_true v = true ∧
          py_len v = Some n ∧ n ≤ 1000) ∧
  (data !! "labor_hours" = None ∨
   ∃ v x, data !! "labor_hours" = Some v ∧ py_float float_of_str v = Float x ∧
          float_lt x 0 = false ∧ float_gt x 10000 = false).
Proof.
  split.
  - lookups data; try done;
      try (destruct (is_true name) eqn:Hn; simpl; [|by repeat case_match]);
      try (destruct (is_true description) eqn:Hd; simpl; [|by repeat case_match]);
      try by repeat case_match.
    + destruct (py_len name) as [n|] eqn:Hln; simpl; [|done].
      destruct (Z.ltb_spec 200 n); simpl; [by repeat case_match|].
      destruct (py_len description) as [d|] eqn:Hld; simpl; [|done].
      destruct (Z.ltb_spec 1000 d); simpl; [by repeat case_match|].
      destruct (py_float float_of_str hours) as [x| | |] eqn:Hx; try done.
      destruct (float_lt x 0) eqn:Hlt; [done|].
      destruct (float_gt x 10000) eqn:Hgt; [done|]. simpl.
      intros _. split; [eauto 10|]. split; [eauto 10|]. right. eauto 10.
    + destruct (py_len name) as [n|] eqn:Hln; simpl; [|done].
      destruct (Z.ltb_spec 200 n); simpl; [by repeat case_match|].
      destruct (py_len description) as [d|] eqn:Hld; simpl; [|done].
      destruct (Z.ltb_spec 1000 d); simpl; [done|].
      intros _. split; [eauto 10|]. split; [eauto 10|]. by left.
  - intros ((v & n & Hv & Htrue & Hlen & Hn) & (w & d & Hw & Hwtrue & Hwlen & Hd) & Hh).
    unfold validate_estimate_input, required_errors, length_errors. simpl.
    rewrite Hv, Hw, Htrue, Hwtrue, Hlen, Hwlen. simpl.
    destruct (Z.ltb_spec 200 n); [lia|].
    destruct (Z.ltb_spec 1000 d); [lia|]. simpl.
    destruct Hh as [->|(h & x & -> & -> & -> & ->)]; done.
Qed.

(** A project name or a description that is present but has no length (a
    JSON null, boolean or number) makes the call raise [TypeError] instead
    of reporting an error, and nothing else does. *)
Theorem validate_estimate_input_type_error data :
  validate data = RaisedTypeError ↔
  (∃ v, data !! "project_name" = Some v ∧ py_len v = None) ∨
  (∃ v, data !! "description" = Some v ∧ py_len v = None).
Proof.
  split.
  - lookups data;
      try (destruct (py_len name) as [n|] eqn:Hln; simpl; [|by eauto]);
      try (destruct (py_len description) as [d|] eqn:Hld; simpl; [|by eauto]);
      by repeat case_match.
  - intros [(v & Hv & Hlen)|(v & Hv & Hlen)].
    + unfold validate_estimate_input, length_errors. by rewrite Hv, Hlen.
    + unfold validate_estimate_input, length_errors. rewrite Hv, Hlen. simpl.
      destruct (data !! "project_name") as [name|]; [|done].
      by destruct (py_len name).
Qed.

Lemma validate_insert_hours data v :
  validate (<["labor_hours" := v]> data)
  = match validate (delete "labor_hours" data) with
    | Errors errors =>
        match py_float float_of_str v with
        | Float hours =>
            if float_lt hours 0 || float_gt hours 10000
            then Errors (errors ++ ["Labor hours must be between 0 and 10000"])
            else Errors errors
        | ValueError | TypeError =>
            Errors (errors ++ ["Labor hours must be a valid number"])
        | OverflowError => RaisedOverflowError
        end
    | raised => raised
    end.
Proof.
  unfold validate_estimate_input, required_errors, length_errors. simpl.
  rewrite lookup_insert_eq, lookup_delete_eq.
  rewrite !lookup_insert_ne, !lookup_delete_ne by done.
  destruct (data !! "project_name") as [name|]; simpl;
    destruct (data !! "description") as [description|]; simpl;
    repeat (case_match; simplify_eq/=; try done).
Qed.

(** Labor hours that are a NaN pass like absent ones, while an infinite
    value of either sign is reported as out of range. *)
Theorem validate_estimate_input_nan_hours data :
  validate (<["labor_hours" := JFloat NaN]> data)
  = validate (delete "labor_hours" data) ∧
  ∀ negative,
    validate (<["labor_hours" := JFloat (Infinity negative)]> data)
    = match validate (delete "labor_hours" data) with
      | Errors errors => Errors (errors ++ ["Labor hours must be between 0 and 10000"])
      | raised => raised
      end.
Proof.
  split; [|intros negative]; rewrite validate_insert_hours; simpl.
  - by destruct (validate _).
  - destruct (validate _); [|done..]. by destruct negative.
Qed.

(** An integer too large for a float makes the call raise
    [OverflowError], which it does not catch, unless a length check raised
    [TypeError] before. *)
Theorem validate_estimate_input_overflow data n :
  data !! "labor_hours" = Some (JInt n) →
  2 ^ 1024 ≤ Z.abs n →
  validate_estimate_input float_of_str data = RaisedTypeError ∨
  validate_estimate_input float_of_str data = RaisedOverflowError.
Proof.
  intros Hhours Hn%overflow_threshold.
  unfold validate_estimate_input, length_errors. rewrite Hhours.
  unfold py_float. rewrite bool_decide_eq_false_2 by done.
  repeat case_match; eauto.
Qed.

(** Each field is reported at most once: a list of errors has no message
    twice and at most three messages. *)
Theorem validate_estimate_input_one_error_per_field data errors :
  validate_estimate_input float_of_str data = Errors errors →
  (length errors ≤ 3)%nat ∧ NoDup errors.
Proof.
  assert (Hdec : ∀ l : list string, bool_decide (NoDup l) = true → NoDup l)
    by (intros l; apply bool_decide_eq_true).
  lookups data;
    try (destruct (is_true name) eqn:Hn; simpl);
    try (destruct (is_true description) eqn:Hd; simpl);
    try (destruct (py_len name) as [n|] eqn:Hln; simpl; [|done]);
    try (destruct (py_len description) as [d|] eqn:Hld; simpl; [|done]);
    try (rewrite (empty_has_no_length name n) by done);
    try (rewrite (empty_has_no_length description d) by done);
    simpl;
    repeat (case_match; simplify_eq/=; try done);
    intros [= <-]; (split; [simpl; lia | by apply Hdec]).
Qed.

End estimate_input_facts.

Lemma validate_estimate_input_overflow_witness :
  let data : gmap string security_fixes.jvalue :=
    {[ "project_name" := security_fixes.JStr "Shop";
       "description" := security_fixes.JStr "Rewiring";
       "labor_hours" := security_fixes.JInt (2 ^ 1024) ]} in
  data !! "labor_hours" = Some (security_fixes.JInt (2 ^ 1024)) ∧
  2 ^ 1024 ≤ Z.abs (2 ^ 1024) ∧
  security_fixes.validate_estimate_input (λ _, None) data
  = security_fixes.RaisedOverflowError.
Proof.
  intros data.
  assert (Hhours : data !! "labor_hours" = Some (security_fixes.JInt (2 ^ 1024)))
    by (vm_compute; reflexivity).
  assert (Hn : 2 ^ 1024 ≤ Z.abs (2 ^ 1024))
    by (apply Z.leb_le; vm_compute; reflexivity).
  split; [exact Hhours|]. split; [exact Hn|].
  destruct (validate_estimate_input_overflow (λ _, None) data (2 ^ 1024) Hhours Hn)
    as [Htype|Hover]; [|exact Hover].
  vm_compute in Htype. discriminate Htype.
Defined.

Lemma validate_estimate_input_one_error_per_field_witness :
  let data : gmap string security_fixes.jvalue :=
    {[ "project_name" := security_fixes.JStr "";
       "labor_hours" := security_fixes.JInt (-5) ]} in
  let errors :=
    ["Field 'project_name' is required"; "Field 'description' is required";
     "Labor hours must be between 0 and 10000"] in
  security_fixes.validate_estimate_input (λ _, None) data
  = security_fixes.Errors errors ∧
  (length errors ≤ 3)%nat ∧ NoDup errors.
Proof.
  intros data errors.
  assert (Hrun : security_fixes.validate_estimate_input (λ _, None) data
                 = security_fixes.Errors errors)
    by (vm_compute; reflexivity).
  split; [exact Hrun|].
  exact (validate_estimate_input_one_error_per_field (λ _, None) data errors Hrun).
Defined.

(** ** Tokens *)

Section auth_facts.
Import security_fixes.
Variable jwt_decode : string → decoded.
Context {R : Type}.
Variable f : pyvalue → R.

Lemma strip_prefix_Some pre s rest :
  strip_prefix pre s = Some rest ↔ s = pre +:+ rest.
Proof.
  revert s. induction pre as [|a pre IH]; intros s; simpl.
  - change (EmptyString +:+ rest) with rest. split; [by intros [= ->]|by intros ->].
  - change (String a pre +:+ rest) with (String a (pre +:+ rest)).
    destruct s as [|b s]; [done|].
    destruct (Ascii.eqb_spec a b) as [->|Hne].
    + rewrite IH. split; [by intros ->|by intros [= ->]].
    + split; [done|]. intros [= ? ?]. by destruct Hne.
Qed.

(** The wrapped view runs only for a request with a non-empty
    [Authorization] header whose token (the header itself, or what follows a
    leading "Bearer ") decodes to a payload with a [user_id]; it runs with
    that user id, and its answer is the response.  In every other case the
    view is not called. *)
Theorem require_auth_runs_view_iff authorization user_id answer :
  require_auth jwt_decode f authorization = Ran user_id answer ↔
  ∃ header token claims,
    authorization = Some header ∧ header ≠ EmptyString ∧
    (header = "Bearer " +:+ token ∨
     (strip_prefix "Bearer " header = None ∧ token = header)) ∧
    jwt_decode token = Payload claims ∧
    claims !! "user_id" = Some user_id ∧
    answer = f user_id.
Proof.
  unfold require_auth. cbv zeta. split.
  - destruct authorization as [[|c header]|]; cbn [truthy negb default from_option id]; [done| |done].
    set (h := String c header).
    destruct (strip_prefix "Bearer " h) as [rest|] eqn:Hstrip.
    + apply strip_prefix_Some in Hstrip.
      destruct (jwt_decode rest) as [claims| |] eqn:Hdecode; try done.
      destruct (claims !! "user_id") as [uid|] eqn:Huid; [|done].
      intros [= <- <-]. exists h, rest, claims. eauto 10.
    + destruct (jwt_decode h) as [claims| |] eqn:Hdecode; try done.
      destruct (claims !! "user_id") as [uid|] eqn:Huid; [|done].
      intros [= <- <-]. exists h, h, claims. eauto 10.
  - intros (header & token & claims & -> & Hne & Htoken & Hdecode & Huid & ->).
    destruct header as [|c header]; [done|]. cbn [truthy negb default from_option id].
    set (h := String c header) in *.
    destruct Htoken as [Hb|[Hnone ->]].
    + apply strip_prefix_Some in Hb. rewrite Hb, Hdecode, Huid. done.
    + rewrite Hnone, Hdecode, Huid. done.
Qed.

(** The "Bearer " prefix is optional: a bare token in the header is treated
    like the same token after "Bearer ". *)
Theorem require_auth_bearer_optional token :
  token ≠ EmptyString →
  strip_prefix "Bearer " token = None →
  require_auth jwt_decode f (Some ("Bearer " +:+ token))
  = require_auth jwt_decode f (Some token).
Proof.
  intros Hne Hbare. unfold require_auth. cbv zeta.
  destruct token as [|c token]; [done|].
  change (truthy (Some ("Bearer " +:+ String c token))) with true.
  change (truthy (Some (String c token))) with true.
  cbn [negb default from_option id].
  rewrite Hbare.
  by rewrite (proj2 (strip_prefix_Some "Bearer " _ (String c token)) eq_refl).
Qed.


End auth_facts.

Lemma require_auth_bearer_optional_witness :
  let jwt_decode := λ token : string,
    if String.eqb token "abc"
    then security_fixes.Payload {[ "user_id" := PyStr "u1" ]}
    else security_fixes.InvalidTokenError in
  "abc" ≠ EmptyString ∧
  strip_prefix "Bearer " "abc" = None ∧
  security_fixes.require_auth jwt_decode py_str (Some ("Bearer " +:+ "abc"))
  = security_fixes.Ran (PyStr "u1") "u1".
Proof.
  intros jwt_decode.
  assert (Hne : "abc" ≠ EmptyString) by discriminate.
  assert (Hbare : strip_prefix "Bearer " "abc" = None) by reflexivity.
  split; [exact Hne|]. split; [exact Hbare|].
  rewrite (require_auth_bearer_optional jwt_decode py_str "abc" Hne Hbare).
  vm_compute. reflexivity.
Defined.


(** ** Batches of images *)

Section batch_facts.
Import AIServiceOptimizer.
Variable read_file : string → option (list Z).
Variable _call_ai_service : string → pyvalue + string.

Local Abbreviation key_of := (_get_image_cache_key read_file).
Local Abbreviation hit := (cache_hit read_file).
Local Abbreviation analyze := (_analyze_single_image read_file _call_ai_service).
Local Abbreviation result_of := (task_result _call_ai_service).
Local Abbreviation answer_of := (answer read_file _call_ai_service).
Local Abbreviation run_batch := (analyze_images_batch read_file _call_ai_service).

Lemma key_of_is_Some p : is_Some (key_of p) ↔ is_Some (read_file p).
Proof.
  unfold _get_image_cache_key. destruct (read_file p); simpl;
    split; intros [? ?]; by eauto.
Qed.

Lemma create_task_Some now db p t :
  create_task read_file now db p = Some t ↔
  is_Some (read_file p) ∧
  t = match hit now db p with
      | Some cached_data => ReturnCached cached_data
      | None => AnalyzeSingleImage p
      end.
Proof.
  unfold create_task, cache_hit, _get_image_cache_key.
  destruct (read_file p) as [image|]; simpl.
  2:{ split; [done|]. by intros [[? ?] _]. }
  destruct (redis.get now db _) as [[|c s]|]; simpl;
    (split; [intros [= <-]; eauto | by intros [_ ->]]).
Qed.

Lemma created_tasks now db paths tasks :
  mapM (create_task read_file now db) paths = Some tasks →
  result_of <$> tasks = answer_of now db <$> paths ∧
  omap analyzed tasks = filter (λ p, hit now db p = None) paths ∧
  Forall (λ p, is_Some (read_file p)) paths ∧
  length tasks = length paths.
Proof.
  rewrite mapM_Some. induction 1 as [|p t paths tasks Ht _ IH].
  { done. }
  destruct IH as (IH1 & IH2 & IH3 & IH4).
  apply create_task_Some in Ht as [Hread ->].
  rewrite !fmap_cons, IH1, filter_cons. cbn [omap list_omap]. fold (omap analyzed tasks).
  rewrite IH2. unfold answer. simpl.
  split; [|split; [|split; [by constructor|by rewrite IH4]]].
  - by destruct (hit now db p).
  - by destruct (hit now db p).
Qed.

Lemma analyze_readable now db p :
  is_Some (read_file p) →
  analyze now db p
  = match _call_ai_service p with
    | inl result =>
        (Returned result,
         <[default "" (key_of p) := redis.Entry (py_str result) (now + 86400)]> db)
    | inr exn => (Raised exn, db)
    end.
Proof.
  intros [image Himage]%key_of_is_Some. unfold _analyze_single_image.
  rewrite Himage. simpl. by destruct (_call_ai_service p).
Qed.

Lemma omap_lookup_seq {A B} (g : nat → option B) (f : A → B) (l : list A) :
  (∀ i x, l !! i = Some x → g i = Some (f x)) →
  omap g (seq 0 (length l)) = f <$> l.
Proof.
  induction l as [|x l IH] using rev_ind; intros Hg; [done|].
  rewrite length_app, seq_app, omap_app, fmap_app. simpl.
  rewrite IH.
  - rewrite (Hg (length l) x); [done|]. by rewrite lookup_app_r, Nat.sub_diag.
  - intros i y Hy. apply Hg. by rewrite lookup_app_l by by eapply lookup_lt_Some.
Qed.

(** The state [gather] ends in: every task of [order] is finished with its
    result, the service calls are those of the tasks that analyse, and the
    store is the initial one after the writes of these tasks. *)
Lemma gather_state now db tasks order :
  (∀ i p, tasks !! i = Some (AnalyzeSingleImage p) → is_Some (read_file p)) →
  let st := gather read_file _call_ai_service now db tasks order in
  (∀ i, finished st !! i
        = if bool_decide (i ∈ order) then result_of <$> tasks !! i else None) ∧
  service_calls st = omap analyzed (omap (tasks !!.) order) ∧
  store st = foldl (λ db p, (analyze now db p).2) db (service_calls st).
Proof.
  intros Hread. unfold gather.
  induction order as [|j order IH] using rev_ind.
  { simpl. split; [|done]. intros i. by rewrite lookup_empty. }
  rewrite foldl_app. simpl.
  destruct IH as (IH1 & IH2 & IH3).
  set (st := foldl _ _ order) in *.
  assert (Hin : ∀ i, bool_decide (i ∈ order ++ [j])
                     = bool_decide (i = j) || bool_decide (i ∈ order)).
  { intros i. rewrite <- bool_decide_or. apply bool_decide_ext.
    rewrite elem_of_app, list_elem_of_singleton. tauto. }
  rewrite !omap_app. simpl. unfold finish_task.
  destruct (tasks !! j) as [[cached|p]|] eqn:Hj; simpl.
  - rewrite !app_nil_r. split; [|done]. intros i. rewrite Hin.
    destruct (decide (i = j)) as [->|Hne].
    + rewrite lookup_insert_eq, bool_decide_eq_true_2 by done. simpl.
      by rewrite Hj.
    + rewrite lookup_insert_ne, bool_decide_eq_false_2 by done. simpl. apply IH1.
  - rewrite analyze_readable by by eapply Hread.
    destruct (_call_ai_service p) as [result|exn] eqn:Hp; simpl.
    + split; [|split].
      * intros i. rewrite Hin. destruct (decide (i = j)) as [->|Hne].
        -- rewrite lookup_insert_eq, bool_decide_eq_true_2 by done. simpl.
           by rewrite Hj; simpl; rewrite Hp.
        -- rewrite lookup_insert_ne, bool_decide_eq_false_2 by done. simpl.
           apply IH1.
      * by rewrite IH2.
      * rewrite foldl_app. simpl. rewrite <- IH3.
        rewrite analyze_readable by by eapply Hread. by rewrite Hp.
    + split; [|split].
      * intros i. rewrite Hin. destruct (decide (i = j)) as [->|Hne].
        -- rewrite lookup_insert_eq, bool_decide_eq_true_2 by done. simpl.
           by rewrite Hj; simpl; rewrite Hp.
        -- rewrite lookup_insert_ne, bool_decide_eq_false_2 by done. simpl.
           apply IH1.
      * by rewrite IH2.
      * rewrite foldl_app. simpl. rewrite <- IH3.
        rewrite analyze_readable by by eapply Hread. by rewrite Hp.
  - rewrite !app_nil_r. split; [|done]. intros i. rewrite Hin.
    destruct (decide (i = j)) as [->|Hne].
    + rewrite bool_decide_eq_true_2 by done. simpl. rewrite Hj. simpl.
      rewrite IH1. case_bool_decide; by rewrite ?Hj.
    + rewrite bool_decide_eq_false_2 by done. simpl. apply IH1.
Qed.

Lemma created_tasks_readable now db paths tasks :
  mapM (create_task read_file now db) paths = Some tasks →
  ∀ i p, tasks !! i = Some (AnalyzeSingleImage p) → is_Some (read_file p).
Proof.
  rewrite mapM_Some. intros Hall i p Hi.
  destruct (Forall2_lookup_r _ _ _ _ _ Hall Hi) as (q & _ & Hq).
  apply create_task_Some in Hq as [Hread Heq].
  destruct (hit now db q); by simplify_eq.
Qed.

(** The run of a batch whose files can all be read, for a completion order
    that is an arrangement of the positions. *)
Lemma run_batch_created now db paths order tasks :
  mapM (create_task read_file now db) paths = Some tasks →
  order ≡ₚ seq 0 (length paths) →
  let st := gather read_file _call_ai_service now db tasks order in
  run_batch now db paths order
  = (if existsb is_raised (answer_of now db <$> paths) then BatchRaised
     else Results (answer_of now db <$> paths) (store st) (service_calls st)) ∧
  service_calls st ≡ₚ filter (λ p, hit now db p = None) paths ∧
  store st = foldl (λ db p, (analyze now db p).2) db (service_calls st).
Proof.
  intros Htasks Horder st.
  destruct (created_tasks _ _ _ _ Htasks) as (Hres & Hcalls & _ & Hlen).
  destruct (gather_state now db tasks order (created_tasks_readable _ _ _ _ Htasks))
    as (Hfin & Hsc & Hst).
  fold st in Hfin, Hsc, Hst.
  assert (Hresults : omap (λ i, finished st !! i) (seq 0 (length tasks))
                     = answer_of now db <$> paths).
  { rewrite <- Hres. apply omap_lookup_seq. intros i t Hi.
    rewrite Hfin, bool_decide_eq_true_2, Hi; [done|].
    rewrite Horder, <- Hlen. apply elem_of_seq. apply lookup_lt_Some in Hi. lia. }
  split; [|split; [|done]].
  - unfold analyze_images_batch. rewrite Htasks. fold st. cbv zeta.
    by rewrite Hresults.
  - rewrite Hsc, Horder, <- Hlen, <- Hcalls. f_equiv.
    rewrite (omap_lookup_seq (tasks !!.) id tasks) by done.
    by rewrite list_fmap_id.
Qed.

(** The writes of analyses that completed: a key written holds the text of
    the result of one of the analysed images with that key, until 24 hours
    later, and a key of none of them is as before. *)
Lemma analyses_lookup now calls db k :
  Forall (λ p, is_Some (read_file p)) calls →
  let db' := foldl (λ db p, (analyze now db p).2) db calls in
  (∃ p result, p ∈ calls ∧ key_of p = Some k ∧ _call_ai_service p = inl result ∧
               db' !! k = Some (redis.Entry (py_str result) (now + 86400))) ∨
  ((∀ p result, p ∈ calls → _call_ai_service p = inl result → key_of p ≠ Some k) ∧
   db' !! k = db !! k).
Proof.
  induction calls as [|q calls IH] using rev_ind; intros Hread db'.
  { right. split; [|done]. intros p result Hp. by apply elem_of_nil in Hp. }
  apply Forall_app in Hread as [Hcalls Hq%Forall_inv].
  simpl in Hq. subst db'. rewrite foldl_app. simpl. rewrite (analyze_readable _ _ q Hq).
  destruct (proj2 (key_of_is_Some q) Hq) as [kq Hkq]. rewrite Hkq. simpl.
  specialize (IH Hcalls). simpl in IH.
  destruct (_call_ai_service q) as [result|exn] eqn:Hresult; simpl.
  - destruct (decide (kq = k)) as [->|Hne].
    + left. exists q, result. rewrite lookup_insert_eq.
      split; [|done]. apply elem_of_app. right. by apply list_elem_of_singleton.
    + rewrite lookup_insert_ne by done.
      destruct IH as [(p & r & Hp & Hk & Hr & Hlook)|[Hnone Hlook]].
      * left. exists p, r. split; [|done]. apply elem_of_app. by left.
      * right. split; [|done]. intros p r [Hp|Hp%list_elem_of_singleton]%elem_of_app Hr.
        -- by eapply Hnone.
        -- subst p. rewrite Hkq. congruence.
  - destruct IH as [(p & r & Hp & Hk & Hr & Hlook)|[Hnone Hlook]].
    + left. exists p, r. split; [|done]. apply elem_of_app. by left.
    + right. split; [|done]. intros p r [Hp|Hp%list_elem_of_singleton]%elem_of_app Hr.
      * by eapply Hnone.
      * subst p. congruence.
Qed.

Lemma existsb_is_raised (l : list response) :
  existsb is_raised l = true ↔ ∃ r, r ∈ l ∧ is_raised r = true.
Proof.
  rewrite existsb_exists. split; intros (r & Hr & ?); exists r;
    (split; [by apply list_elem_of_In|done]).
Qed.


(** One file of the batch that cannot be read makes the whole batch raise,
    whatever the store holds for the other images. *)
Theorem analyze_images_batch_unreadable now db paths order p :
  p ∈ paths → read_file p = None →
  analyze_images_batch read_file _call_ai_service now db paths order = BatchRaised.
Proof.
  intros Hp Hnone. unfold analyze_images_batch.
  destruct (mapM (create_task read_file now db) paths) as [tasks|] eqn:Htasks; [|done].
  apply created_tasks in Htasks as (_ & _ & Hread & _).
  rewrite Forall_forall in Hread. apply Hread in Hp as [? ?]. congruence.
Qed.

Lemma run_batch_stores now db paths order results db' calls :
  order ≡ₚ seq 0 (length paths) →
  run_batch now db paths order = Results results db' calls →
  Forall (λ p, is_Some (read_file p)) paths ∧
  (∀ p, p ∈ paths → hit now db p = None →
     ∃ k p' result,
       key_of p = Some k ∧ p' ∈ paths ∧ key_of p' = Some k ∧
       _call_ai_service p' = inl result ∧
       ∀ now', now' < now + 86400 → redis.get now' db' k = Some (py_str result)) ∧
  (∀ k, (∀ p, p ∈ paths → hit now db p = None → key_of p ≠ Some k) →
        db' !! k = db !! k).
Proof.
  intros Horder Hrun.
  destruct (mapM (create_task read_file now db) paths) as [tasks|] eqn:Htasks.
  2:{ unfold analyze_images_batch in Hrun. by rewrite Htasks in Hrun. }
  destruct (created_tasks _ _ _ _ Htasks) as (_ & _ & Hread & _).
  destruct (run_batch_created now db paths order tasks Htasks Horder)
    as (Heq & Hcalls & Hstore).
  rewrite Heq in Hrun.
  destruct (existsb is_raised (answer_of now db <$> paths)) eqn:Hraised; [done|].
  injection Hrun as _ <- <-.
  set (st := gather read_file _call_ai_service now db tasks order) in *.
  assert (Hin : ∀ p, p ∈ service_calls st ↔ p ∈ paths ∧ hit now db p = None).
  { intros p. rewrite Hcalls. rewrite list_elem_of_filter. tauto. }
  assert (Hcallsread : Forall (λ p, is_Some (read_file p)) (service_calls st)).
  { apply Forall_forall. intros p [Hp _]%Hin. rewrite Forall_forall in Hread. eauto. }
  assert (Hok : ∀ p, p ∈ paths → hit now db p = None →
                     ∃ result, _call_ai_service p = inl result).
  { intros p Hp Hmiss. destruct (_call_ai_service p) as [result|exn] eqn:Hresult; [eauto|].
    assert (Hr : existsb is_raised (answer_of now db <$> paths) = true).
    { apply existsb_is_raised. exists (Raised exn). split; [|done].
      apply list_elem_of_fmap. exists p. split; [|done].
      unfold answer. by rewrite Hmiss, Hresult. }
    congruence. }
  split; [done|]. split.
  - intros p Hp Hmiss.
    rewrite Forall_forall in Hread.
    destruct (proj2 (key_of_is_Some p) (Hread p Hp)) as [k Hk].
    destruct (analyses_lookup now (service_calls st) db k Hcallsread)
      as [(p' & result & Hp' & Hk' & Hresult & Hlook)|[Hnone _]].
    + exists k, p', result. apply Hin in Hp' as [Hp' _].
      repeat (split; [done|]). intros now' Hnow'.
      apply get_Some. rewrite <- Hstore in Hlook. eexists. by split; [exact Hlook|].
    + destruct (Hok p Hp Hmiss) as [result Hresult].
      destruct (Hnone p result); [by apply Hin|done..].
  - intros k Hk. rewrite Hstore.
    destruct (analyses_lookup now (service_calls st) db k Hcallsread)
      as [(p' & result & Hp' & Hk' & Hresult & Hlook)|[_ Hlook]]; [|done].
    apply Hin in Hp' as [Hp' Hmiss]. by destruct (Hk p' Hp' Hmiss).
Qed.

Lemma py_eval_not_raised src : is_raised (py_eval src) = false.
Proof. unfold py_eval. repeat case_decide; try done. by repeat case_match. Qed.

(** After a batch that returned, every image that had no cached text has
    one for the next 24 hours: the text of the result the service gave for
    it, or for another image of the batch with the same bytes.  The keys of
    no such image are as they were. *)
Theorem analyze_images_batch_stores now db paths order :
  order ≡ₚ seq 0 (length paths) →
  match run_batch now db paths order with
  | Results _ db' _ =>
      (∀ p, p ∈ paths → hit now db p = None →
         ∃ k p' result,
           key_of p = Some k ∧ p' ∈ paths ∧ key_of p' = Some k ∧
           _call_ai_service p' = inl result ∧
           ∀ now', now' < now + 86400 → redis.get now' db' k = Some (py_str result)) ∧
      (∀ k, (∀ p, p ∈ paths → hit now db p = None → key_of p ≠ Some k) →
            db' !! k = db !! k)
  | BatchRaised => True
  end.
Proof.
  intros Horder.
  destruct (run_batch now db paths order) as [results db' calls|] eqn:Hrun; [|done].
  by destruct (run_batch_stores now db paths order results db' calls Horder Hrun)
    as (_ & ? & ?).
Qed.


End batch_facts.


Lemma analyze_images_batch_unreadable_witness :
  let read_file := λ p : string,
    if String.eqb p "a.png" then Some [1; 2; 3] else None in
  let service := λ p : string, inl (PyInt 7) : pyvalue + string in
  "gone.png" ∈ ["a.png"; "gone.png"] ∧
  read_file "gone.png" = None ∧
  AIServiceOptimizer.analyze_images_batch read_file service 0 ∅ ["a.png"; "gone.png"]
    [0; 1]%nat
  = AIServiceOptimizer.BatchRaised.
Proof.
  intros read_file service.
  assert (Hin : "gone.png" ∈ ["a.png"; "gone.png"])
    by (apply elem_of_cons; right; apply elem_of_cons; by left).
  assert (Hnone : read_file "gone.png" = None) by reflexivity.
  split; [exact Hin|]. split; [exact Hnone|].
  exact (analyze_images_batch_unreadable read_file service 0 ∅ ["a.png"; "gone.png"]
           [0; 1]%nat "gone.png" Hin Hnone).
Defined.

Lemma analyze_images_batch_stores_witness :
  let read_file := λ p : string,
    if String.eqb p "a.png" then Some [1; 2; 3]
    else if String.eqb p "b.png" then Some [1; 2; 3]
    else None in
  let service := λ p : string, inl (PyInt (Z.of_nat (String.length p))) : pyvalue + string in
  let paths := ["a.png"; "b.png"] in
  [1; 0]%nat ≡ₚ seq 0 (length paths) ∧
  match AIServiceOptimizer.analyze_images_batch read_file service 0 ∅ paths [1; 0]%nat with
  | AIServiceOptimizer.Results _ db' _ =>
      (∀ p, p ∈ paths → AIServiceOptimizer.cache_hit read_file 0 ∅ p = None →
         ∃ k p' result,
           AIServiceOptimizer._get_image_cache_key read_file p = Some k ∧ p' ∈ paths ∧
           AIServiceOptimizer._get_image_cache_key read_file p' = Some k ∧
           service p' = inl result ∧
           ∀ now', now' < 0 + 86400 → redis.get now' db' k = Some (py_str result)) ∧
      (∀ k, (∀ p, p ∈ paths → AIServiceOptimizer.cache_hit read_file 0 ∅ p = None →
                  AIServiceOptimizer._get_image_cache_key read_file p ≠ Some k) →
            db' !! k = (∅ : gmap string redis.entry) !! k)
  | AIServiceOptimizer.BatchRaised => True
  end.
Proof.
  intros read_file service paths.
  assert (Horder : [1; 0]%nat ≡ₚ seq 0 (length paths)) by apply perm_swap.
  split; [exact Horder|].
  exact (analyze_images_batch_stores read_file service 0 ∅ paths [1; 0]%nat Horder).
Defined.


(** ** The cache across calls *)

Section cache_namespaces.
Import redis CacheManager.

Lemma app_inj_length (a b a' b' : string) :
  a +:+ b = a' +:+ b' → String.length b = String.length b' → a = a' ∧ b = b'.
Proof.
  intros Heq Hlen.
  apply (f_equal list_ascii_of_string) in Heq.
  rewrite !list_ascii_of_string_app in Heq.
  apply app_inj_2 in Heq as [Ha Hb].
  - split.
    + by rewrite <- (string_of_list_ascii_of_string a), Ha,
        string_of_list_ascii_of_string.
    + by rewrite <- (string_of_list_ascii_of_string b), Hb,
        string_of_list_ascii_of_string.
  - clear Heq. revert b' Hlen.
    induction b as [|c b IH]; intros [|c' b'] Hlen; simplify_eq/=; [done|].
    f_equal. by apply IH.
Qed.

Lemma cache_key_inj key_prefix args kwargs key_prefix' args' kwargs' :
  cache_key key_prefix args kwargs = cache_key key_prefix' args' kwargs' →
  key_prefix = key_prefix' ∧ get_cache_key args kwargs = get_cache_key args' kwargs'.
Proof.
  unfold cache_key. intros Heq.
  apply app_inj_length in Heq as [Hp Hd].
  - split; [done|]. by injection Hd.
  - change (String.length (String ":" (get_cache_key args kwargs))
            = String.length (String ":" (get_cache_key args' kwargs'))).
    simpl. by rewrite !get_cache_key_length.
Qed.

(** Functions cached under different key prefixes never share an entry: a
    call of one, hit or miss, leaves what the store answers for every key of
    the other as it was. *)
Theorem cache_result_prefixes_are_disjoint
    timeout key_prefix func now db args kwargs key_prefix' args' kwargs' now' :
  key_prefix ≠ key_prefix' →
  get now' (store (wrapper timeout key_prefix func now db args kwargs))
    (cache_key key_prefix' args' kwargs')
  = get now' db (cache_key key_prefix' args' kwargs').
Proof.
  intros Hne. unfold wrapper.
  destruct (truthy (get now db (cache_key key_prefix args kwargs))); [done|].
  destruct (setex now db _ timeout _) as [db'|] eqn:Hset; [|done].
  simpl. eapply get_setex_other; [exact Hset|].
  intros Heq. by apply cache_key_inj in Heq as [? _].
Qed.

(** Once a pattern has been invalidated, a scan for it finds nothing, then
    and at any later time as long as nothing is written, and invalidating
    it again changes nothing. *)
Theorem invalidate_pattern_leaves_no_match now db pattern now' :
  now ≤ now' →
  scan_iter now' (invalidate_pattern now db pattern) ("estimation_app:" +:+ pattern) = [] ∧
  invalidate_pattern now' (invalidate_pattern now db pattern) pattern
  = invalidate_pattern now db pattern.
Proof.
  intros Hnow.
  assert (Hscan : scan_iter now' (invalidate_pattern now db pattern)
                    ("estimation_app:" +:+ pattern) = []).
  { apply elem_of_nil_inv. intros k (e & Hk & Hlive & Hm)%elem_of_scan_iter.
    rewrite invalidate_pattern_lookup in Hk.
    destruct (db !! k) as [e0|]; [|done].
    destruct (live now e0) eqn:Hlive0.
    - apply Is_true_true in Hm. rewrite Hm in Hk. done.
    - simpl in Hk. injection Hk as ->. unfold live in *.
      apply bool_decide_eq_false in Hlive0. apply bool_decide_unpack in Hlive. lia. }
  split; [done|]. unfold invalidate_pattern at 1. by rewrite Hscan.
Qed.

End cache_namespaces.

Lemma cache_result_prefixes_are_disjoint_witness :
  let func := λ (args : list pyvalue) (_ : list CacheManager.item), PyInt 10 in
  "estimate" ≠ "material" ∧
  redis.get 1
    (CacheManager.store (CacheManager.wrapper 60 "estimate" func 0 ∅ [PyInt 5] []))
    (CacheManager.cache_key "material" [PyInt 5] [])
  = redis.get 1 ∅ (CacheManager.cache_key "material" [PyInt 5] []).
Proof.
  intros func.
  assert (Hne : "estimate" ≠ "material") by discriminate.
  split; [exact Hne|].
  pose proof (cache_result_prefixes_are_disjoint 60 "estimate" func 0 ∅ [PyInt 5] []
                "material" [PyInt 5] [] 1 Hne) as Hdisjoint.
  exact Hdisjoint.
Defined.

Lemma invalidate_pattern_leaves_no_match_witness :
  let db : gmap string redis.entry :=
    {[ "estimation_app:estimate:1" := redis.Entry "10" 60 ]} in
  0 ≤ 5 ∧
  redis.scan_iter 5 (CacheManager.invalidate_pattern 0 db "estimate:*")
    ("estimation_app:" +:+ "estimate:*") = [] ∧
  CacheManager.invalidate_pattern 5 (CacheManager.invalidate_pattern 0 db "estimate:*")
    "estimate:*"
  = CacheManager.invalidate_pattern 0 db "estimate:*".
Proof.
  intros db.
  assert (Hnow : 0 ≤ 5) by lia.
  split; [exact Hnow|].
  pose proof (invalidate_pattern_leaves_no_match 0 db "estimate:*" 5 Hnow) as Hgone.
  exact Hgone.
Defined.

(** ** Statistics after a timed operation *)

Section monitor_composition.
Import PerformanceMonitor.
Context {float : Type}.
Variable fsub fadd fmin fmax : float → float → float.
Variable fdiv : float → nat → float.
Variable fzero : float.
Variable exceeds5 : float → bool.

(** Right after an operation was timed its statistics are there, whatever
    the dict held before and however the block ended: nothing is raised and
    the count is one more than the number of samples the operation had. *)
Theorem get_statistics_after_track_time
    (operation_name : string) (body : world → exit * world) (w : world) :
  let before := default [] (metrics (body w).2 !! operation_name) in
  let ended := track_time fsub exceeds5 operation_name body w in
  ∃ total average lo hi,
    get_statistics fadd fmin fmax fdiv fzero (metrics ended.2) operation_name
    = Stats (S (length before)) total average lo hi.
Proof.
  intros before ended. subst before ended.
  unfold track_time. destruct (body w) as [e w']. cbn [fst snd].
  rewrite record_sample_metrics. unfold get_statistics.
  rewrite lookup_insert_eq.
  set (times := default [] (metrics w' !! operation_name)).
  rewrite length_app. simpl.
  rewrite bool_decide_eq_false_2 by lia.
  replace (length times + 1)%nat with (S (length times)) by lia.
  destruct times as [|t times]; simpl; eauto.
Qed.

End monitor_composition.
